(** * The counter feature and the JSON HTTP client

  A shallow embedding of the counter use cases, the simulated counter
  service, [toQueryString] and [fetchJSON], with the properties their
  specification states.

  Conventions.  A JavaScript [number] that the code only ever uses as an
  integer is a [Z].  A JavaScript string is a [string], read as the UTF-8
  bytes of well-formed text.  A plain object used as a record of headers is
  a [gmap string string]; an object whose enumeration order is observable
  (the argument of [toQueryString]) is an association list in the order
  [Object.entries] yields.  The clock is virtual and counts milliseconds,
  the way the test-suite drives it with fake timers.

  Sources.  The counter service is [src/unnamed/part_000] (its first
  document), [fetchJSON] and [toQueryString] are [src/unnamed/part_003],
  the types [IDictionary] and [JSONValue] are [src/unnamed/part_002].  The
  counter model and the use cases are imported by the sources and their
  tests but are not among them: their definitions below follow the
  specification and are marked as such. *)

From Stdlib Require Import ZArith Lia List String Ascii Bool.
From Stdlib Require Import Numbers.DecimalString.
From stdpp Require Import base option gmap strings list.
Import ListNotations.

Local Open Scope Z_scope.

(* ===================================================================== *)
(** ** Counter entity and model *)
(* ===================================================================== *)

Module CounterModel.

(** Modelled from the spec: the type [Counter] of the module
    [counterEntity] (not among the sources), "a single integer-valued
    field"; the tests write it [{ value: 0 }]. *)
Record Counter : Type := { value : Z }.

(** Modelled from the spec: the module [counterModel] (imported by the
    counter service, not among the sources).  "constructed by a pure
    factory from a primitive number". *)
Definition create (count : Z) : Counter := {| value := count |}.

(** Modelled from the spec: "[value + 1]". *)
Definition increment (counter : Counter) : Counter :=
  {| value := value counter + 1 |}.

(** Modelled from the spec: "[value - 1], clamped so it never goes below
    0 -- decrement is a no-op at 0". *)
Definition decrement (counter : Counter) : Counter :=
  {| value := Z.max (value counter - 1) 0 |}.


(** The data model's invariant on a counter. *)
Definition valid (counter : Counter) : Prop := 0 <= value counter.

End CounterModel.

(* ===================================================================== *)
(** ** Use cases: local update now, debounced remote write later *)
(* ===================================================================== *)

Module UseCases.
Import CounterModel.

(** Modelled from the spec: the debounce window, "observed default
    ~ 500ms". *)
Definition debounceWindow : nat := 500%nat.

(** Modelled from the spec: the "pending write state (debounce timer)" of
    the use-case module (not among the sources): which use-case call armed
    it, when it is due, and the counter it will send. *)
Record Pending : Type :=
  { origin : nat; deadline : nat; payload : Counter }.

(** One invocation of [store.updateCounter], as a mock records it. *)
Record RemoteWrite : Type :=
  { firedAt : nat; from : nat; sent : Counter }.

(** Modelled from the spec: the store abstraction of section 6,
    [{ counter, setCounter(c), updateCounter(c) }], together with the
    fake clock and the use-case module's pending timer.  [setCounter] is
    the "synchronous local update", [updateCounter] the "intent to persist
    remotely"; both are logged the way the test's [vi.fn()] mocks log
    their calls.  The use cases read a loaded counter (the spec's steps
    start from "the current Counter value"), so the store holds one.  A
    call to either use case supersedes the pending write, so one timer
    slot serves both directions of change. *)
Record World : Type :=
  { now : nat;
    counter : Counter;
    setCounterCalls : list Counter;
    updateCounterCalls : list RemoteWrite;
    timer : option Pending;
    calls : nat }.

(** Modelled from the spec: [store.setCounter], the "synchronous local
    update" of the store abstraction. *)
Definition setCounter (c : Counter) (w : World) : World :=
  {| now := now w;
     counter := c;
     setCounterCalls := setCounterCalls w ++ [c];
     updateCounterCalls := updateCounterCalls w;
     timer := timer w;
     calls := calls w |}.

(** Modelled from the spec: [store.updateCounter], the "intent to persist
    remotely"; the log keeps when it was invoked and for which call. *)
Definition updateCounter (at_ : nat) (id : nat) (c : Counter) (w : World) : World :=
  {| now := now w;
     counter := counter w;
     setCounterCalls := setCounterCalls w;
     updateCounterCalls :=
       updateCounterCalls w ++ [{| firedAt := at_; from := id; sent := c |}];
     timer := timer w;
     calls := calls w |}.

(** Modelled from the spec: step 4, "Schedule a remote persistence call
    after a fixed debounce window.  If another call to either use case
    arrives before the window elapses, the previous scheduled persistence
    is superseded".  Arming replaces whatever timer was pending. *)
Definition schedule (c : Counter) (w : World) : World :=
  {| now := now w;
     counter := counter w;
     setCounterCalls := setCounterCalls w;
     updateCounterCalls := updateCounterCalls w;
     timer := Some {| origin := calls w;
                      deadline := (now w + debounceWindow)%nat;
                      payload := c |};
     calls := S (calls w) |}.

(** Modelled from the spec: section 4.1, steps 1 to 4, for either use
    case: read the counter, compute the next value, call
    [store.setCounter(next)] immediately, schedule the remote write. *)
Definition updateCounterUseCase (updateBy : Counter -> Counter) (w : World) : World :=
  let next := updateBy (counter w) in
  schedule next (setCounter next w).

(** Modelled from the spec: [incrementCounterUseCase(store)] (not among
    the sources; its test is). *)
Definition incrementCounterUseCase : World -> World :=
  updateCounterUseCase increment.

(** Modelled from the spec: [decrementCounterUseCase(store)] (not among
    the sources; its test is). *)
Definition decrementCounterUseCase : World -> World :=
  updateCounterUseCase decrement.

(** Modelled from the spec: step 5, "On the debounce window elapsing,
    call [store.updateCounter(next)]".  The clock moves forward by [ms],
    as [vi.advanceTimersByTime(ms)] does; a timer that is due by then
    fires at its deadline. *)
Definition advanceTimersByTime (ms : nat) (w : World) : World :=
  let target := (now w + ms)%nat in
  let fired :=
    match timer w with
    | Some p =>
        if (deadline p <=? target)%nat
        then
          let w' := updateCounter (deadline p) (origin p) (payload p) w in
          {| now := now w';
             counter := counter w';
             setCounterCalls := setCounterCalls w';
             updateCounterCalls := updateCounterCalls w';
             timer := None;
             calls := calls w' |}
        else w
    | None => w
    end in
  {| now := target;
     counter := counter fired;
     setCounterCalls := setCounterCalls fired;
     updateCounterCalls := updateCounterCalls fired;
     timer := timer fired;
     calls := calls fired |}.

(** What a driver of the use cases does, one step at a time. *)
Inductive Step : Type :=
| Increment
| Decrement
| Advance (ms : nat).

Definition isCall (s : Step) : bool :=
  match s with Advance _ => false | _ => true end.

Definition step (w : World) (s : Step) : World :=
  match s with
  | Increment => incrementCounterUseCase w
  | Decrement => decrementCounterUseCase w
  | Advance ms => advanceTimersByTime ms w
  end.

Definition run (steps : list Step) (w : World) : World :=
  fold_left step steps w.


(** The use-case calls of a run, in order. *)
Definition callsOf (steps : list Step) : list Step :=
  List.filter isCall steps.

(** A store holding [c], as a test sets one up: nothing pending, nothing
    logged, clock at zero. *)
Definition freshWorld (c : Counter) : World :=
  {| now := 0%nat;
     counter := c;
     setCounterCalls := [];
     updateCounterCalls := [];
     timer := None;
     calls := 0%nat |}.

(** [{ ...storeMock, counter: c }], as the test passes it to the second
    call: the same mocks around another counter. *)
Definition withCounter (c : Counter) (w : World) : World :=
  {| now := now w;
     counter := c;
     setCounterCalls := setCounterCalls w;
     updateCounterCalls := updateCounterCalls w;
     timer := timer w;
     calls := calls w |}.


(** *** Vocabulary for the properties below *)

(** The local effect of one step on the counter. *)
Definition localEffect (s : Step) (c : Counter) : Counter :=
  match s with
  | Increment => increment c
  | Decrement => decrement c
  | Advance _ => c
  end.

(** The counters a sequence of steps passes to [store.setCounter], from a
    store that holds [c]. *)
Fixpoint locals (steps : list Step) (c : Counter) : list Counter :=
  match steps with
  | [] => []
  | Advance _ :: rest => locals rest c
  | s :: rest => localEffect s c :: locals rest (localEffect s c)
  end.

Definition final (steps : list Step) (c : Counter) : Counter :=
  fold_left (fun c s => localEffect s c) steps c.

(** The values [v+1 .. v+n], then [v+n-1 .. v]. *)
Definition climb (v : Z) (n : nat) : list Counter :=
  List.map (fun i => create (v + Z.of_nat i)) (seq 1 n).

Definition descend (v : Z) (n : nat) : list Counter :=
  List.map (fun i => create (v - Z.of_nat i)) (seq 1 n).




End UseCases.

(* ===================================================================== *)
(** ** The simulated remote counter service *)
(* ===================================================================== *)

Module CounterService.
Import CounterModel.

(** [counterService], the first document of [src/unnamed/part_000]. *)

(** A promise the service handed out, by number. *)
Definition PromiseId : Type := nat.

(** The two callbacks the module passes to [setTimeout]. *)
Inductive Callback : Type :=
| ResolveCount (p : PromiseId)
    (* () => { resolve(create(count)); } *)
| StoreThenResolve (p : PromiseId) (counter : Counter).
    (* () => { count = counter.value; resolve(create(count)); } *)

Record Timer : Type := { due : nat; callback : Callback }.

(** A promise's resolution: when, and with which counter. *)
Record Resolution : Type :=
  { promise : PromiseId; resolvedAt : nat; result : Counter }.

(** The module's state: its variable [count] (line 4), the host's clock
    and timer queue, and the promises resolved so far. *)
Record Service : Type :=
  { now : nat;
    count : Z;
    timers : list Timer;
    nextPromise : PromiseId;
    resolved : list Resolution }.

(** [let count = 0;] with an idle host. *)
Definition initial : Service :=
  {| now := 0%nat; count := 0; timers := []; nextPromise := 0%nat; resolved := [] |}.

(** The host's timer queue is ordered by due time, timers due at the same
    instant in the order they were set. *)
Fixpoint enqueue (t : Timer) (q : list Timer) : list Timer :=
  match q with
  | [] => [t]
  | u :: q' => if (due u <=? due t)%nat then u :: enqueue t q' else t :: q
  end.

Definition setTimers (q : list Timer) (s : Service) : Service :=
  {| now := now s;
     count := count s;
     timers := q;
     nextPromise := nextPromise s;
     resolved := resolved s |}.

Definition setNow (t : nat) (s : Service) : Service :=
  {| now := t;
     count := count s;
     timers := timers s;
     nextPromise := nextPromise s;
     resolved := resolved s |}.

Definition setCount (n : Z) (s : Service) : Service :=
  {| now := now s;
     count := n;
     timers := timers s;
     nextPromise := nextPromise s;
     resolved := resolved s |}.

Definition setTimeout (cb : Callback) (ms : nat) (s : Service) : Service :=
  setTimers (enqueue {| due := (now s + ms)%nat; callback := cb |} (timers s)) s.

(** [new Promise(...)]: the next promise number is taken. *)
Definition newPromise (s : Service) : Service * PromiseId :=
  ({| now := now s;
      count := count s;
      timers := timers s;
      nextPromise := S (nextPromise s);
      resolved := resolved s |},
   nextPromise s).

(** [getCounter] (lines 6 to 12). *)
Definition getCounter (s : Service) : Service * PromiseId :=
  let '(s1, p) := newPromise s in
  (setTimeout (ResolveCount p) 1000 s1, p).

(** [updateCounter] (lines 14 to 21). *)
Definition updateCounter (counter : Counter) (s : Service) : Service * PromiseId :=
  let '(s1, p) := newPromise s in
  (setTimeout (StoreThenResolve p counter) 1000 s1, p).

Definition resolve (p : PromiseId) (at_ : nat) (c : Counter) (s : Service) : Service :=
  {| now := now s;
     count := count s;
     timers := timers s;
     nextPromise := nextPromise s;
     resolved := resolved s ++ [{| promise := p; resolvedAt := at_; result := c |}] |}.

(** Running one timer's callback at the instant it is due. *)
Definition fire (t : Timer) (s : Service) : Service :=
  match callback t with
  | ResolveCount p => resolve p (due t) (create (count s)) s
  | StoreThenResolve p counter =>
      let s' := setCount (value counter) s in
      resolve p (due t) (create (count s')) s'
  end.

(** Fire, in queue order, every timer due by [target]; the rest stay
    queued. *)
Fixpoint fireDue (target : nat) (q : list Timer) (s : Service) : Service :=
  match q with
  | [] => setTimers [] s
  | t :: q' =>
      if (due t <=? target)%nat
      then fireDue target q' (fire t s)
      else setTimers q s
  end.

(** The clock moves forward by [ms], as [vi.advanceTimersByTime(ms)]. *)
Definition advanceTimersByTime (ms : nat) (s : Service) : Service :=
  setNow (now s + ms)%nat (fireDue (now s + ms)%nat (timers s) s).

(** A queue in due order whose timers are all due within [lo .. hi]. *)
Fixpoint ordered (lo hi : nat) (q : list Timer) : Prop :=
  match q with
  | [] => True
  | t :: q' => (lo <= due t <= hi)%nat /\ ordered (due t) hi q'
  end.

(** The queue is in due order and holds no timer that is overdue or set
    further ahead than the service's fixed delay.  Every state the service
    reaches is like this. *)
Definition wellTimed (s : Service) : Prop :=
  ordered (S (now s)) (now s + 1000)%nat (timers s).

(** How promise [p] was resolved, if it was. *)
Definition resolutionOf (p : PromiseId) (s : Service) : option Resolution :=
  List.find (fun r => (promise r =? p)%nat) (resolved s).

(** What a client of the service does, one step at a time. *)
Inductive Op : Type :=
| Get
| Update (counter : Counter)
| Tick (ms : nat).

Definition perform (s : Service) (o : Op) : Service :=
  match o with
  | Get => fst (getCounter s)
  | Update counter => fst (updateCounter counter s)
  | Tick ms => advanceTimersByTime ms s
  end.

Definition runOps (ops : list Op) (s : Service) : Service :=
  fold_left perform ops s.

Definition bump (s : Service) : Service := fst (newPromise s).

(** The promise a queued callback will resolve. *)
Definition promiseOf (t : Timer) : PromiseId :=
  match callback t with
  | ResolveCount p => p
  | StoreThenResolve p _ => p
  end.

(** The promises handed out so far that a state knows of: the resolved
    ones in the order they were resolved, then the pending ones in queue
    order. *)
Definition issued (s : Service) : list PromiseId :=
  List.map promise (resolved s) ++ List.map promiseOf (timers s).

(** Only values from [allowed] are stored, were answered or are about to
    be stored. *)
Definition confined (allowed : Z -> Prop) (s : Service) : Prop :=
  allowed (count s)
  /\ Forall (fun r => allowed (value (result r))) (resolved s)
  /\ Forall (fun t => match callback t with
                      | StoreThenResolve _ counter => allowed (value counter)
                      | ResolveCount _ => True
                      end) (timers s).

(** The values the service has been asked to store, and the initial 0. *)
Fixpoint storedValues (ops : list Op) : list Z :=
  match ops with
  | [] => [0]
  | Update counter :: rest => value counter :: storedValues rest
  | _ :: rest => storedValues rest
  end.

End CounterService.

(* ===================================================================== *)
(** ** Strings the way the platform handles them *)
(* ===================================================================== *)

Module Text.

Local Open Scope string_scope.

Definition dquote : ascii := Eval cbv in ascii_of_nat 34.
Definition backslash : ascii := Eval cbv in ascii_of_nat 92.

(** A string is truthy unless it is empty. *)
Definition nonEmpty (s : string) : bool :=
  match s with EmptyString => false | String _ _ => true end.

Definition between (lo hi n : nat) : bool := ((lo <=? n) && (n <=? hi))%nat.

Definition hexDigit (upper : bool) (n : nat) : ascii :=
  if (n <? 10)%nat then ascii_of_nat (48 + n)
  else ascii_of_nat ((if upper then 55 else 87) + n).

(** The characters [encodeURIComponent] leaves alone:
    [A-Z a-z 0-9 - _ . ! ~ * ' ( )]. *)
Definition isUnreserved (c : ascii) : bool :=
  let n := nat_of_ascii c in
  between 65 90 n || between 97 122 n || between 48 57 n
  || existsb (Ascii.eqb c) ["-"; "_"; "."; "!"; "~"; "*"; "'"; "("; ")"]%char.

(** One byte of [encodeURIComponent]'s result: a byte that is not
    unreserved becomes [%XX], in upper-case hexadecimal. *)
Definition encodeByte (c : ascii) : string :=
  if isUnreserved c then String c EmptyString
  else
    let n := nat_of_ascii c in
    String "%" (String (hexDigit true (n / 16)%nat)
                  (String (hexDigit true (n mod 16)%nat) EmptyString)).

(** [encodeURIComponent] on the UTF-8 bytes of its argument. *)
Fixpoint encodeURIComponent (s : string) : string :=
  match s with
  | EmptyString => EmptyString
  | String c rest => encodeByte c ++ encodeURIComponent rest
  end.


(** [s.includes(sub)]. *)
Fixpoint includes (s sub : string) : bool :=
  String.prefix sub s
  || match s with
     | EmptyString => false
     | String _ rest => includes rest sub
     end.

Definition lowerChar (c : ascii) : ascii :=
  let n := nat_of_ascii c in
  if between 65 90 n then ascii_of_nat (n + 32) else c.

Fixpoint toLowerCase (s : string) : string :=
  match s with
  | EmptyString => EmptyString
  | String c rest => String (lowerChar c) (toLowerCase rest)
  end.

(** How many times [c] occurs in [s]. *)
Fixpoint count (c : ascii) (s : string) : nat :=
  match s with
  | EmptyString => 0%nat
  | String d rest => ((if Ascii.eqb c d then 1 else 0) + count c rest)%nat
  end.

End Text.

(* ===================================================================== *)
(** ** [toQueryString] *)
(* ===================================================================== *)

Module Url.
Import Text.

Local Open Scope string_scope.

(** A value of [IDictionary<string | string[] | undefined>]. *)
Inductive QueryValue : Type :=
| QString (s : string)
| QList (items : list string)
| QUndefined.

(** The dictionary, as the list of entries [Object.entries(obj)] yields. *)
Definition IDictionary : Type := list (string * QueryValue).

Definition isUndefined (v : QueryValue) : bool :=
  match v with QUndefined => true | _ => false end.

(** [([] as string[]).concat(value as string)], with [undefined] turned into
    the text [encodeURIComponent] would make of it. *)
Definition concatValue (v : QueryValue) : list string :=
  match v with
  | QString s => [s]
  | QList items => items
  | QUndefined => ["undefined"]
  end.

(** [const parse = (list) => list.filter(Boolean).join("&")] (line 243). *)
Definition parse (items : list string) : string :=
  String.concat "&" (List.filter nonEmpty items).

Definition pair (key val : string) : string :=
  encodeURIComponent key ++ "=" ++ encodeURIComponent val.

(** [toQueryString] ([src/unnamed/part_003], lines 240 to 258). *)
Definition toQueryString (obj : IDictionary) : string :=
  parse
    (List.map
       (fun '(key, value) => parse (List.map (fun val => pair key val) (concatValue value)))
       (List.filter (fun '(_, value) => negb (isUndefined value)) obj)).

(** What the specification says of the result, sentence by sentence: the
    [key=value] pairs of one entry, a list giving one pair per element in
    list order and an undefined value none ... *)
Definition pairsOf (entry : string * QueryValue) : list string :=
  match entry with
  | (key, QString s) => [pair key s]
  | (key, QList items) => List.map (pair key) items
  | (key, QUndefined) => []
  end.


(** The pairs the code makes of one defined entry. *)
Definition pairsOfDefined (entry : string * QueryValue) : list string :=
  let '(key, value) := entry in List.map (fun val => pair key val) (concatValue value).

(** Whether an entry's value gives at least one pair: it is neither
    undefined nor an empty list. *)
Definition contributes (entry : string * QueryValue) : bool :=
  match snd entry with
  | QUndefined => false
  | QList [] => false
  | _ => true
  end.

End Url.

(* ===================================================================== *)
(** ** JSON values *)
(* ===================================================================== *)

Module Json.
Import Text.

Local Open Scope string_scope.

#[local] Set Warnings "-register-all".

(** [JSONValue = JSONPrimitive | JSONArray | JSONObject] of
    [src/unnamed/part_002], numbers being integers. *)
Inductive JSONValue : Type :=
| JNull
| JBool (b : bool)
| JNumber (n : Z)
| JString (s : string)
| JArray (items : list JSONValue)
| JObject (members : list (string * JSONValue)).

(** What [if (body)] makes of a JSON value: [null], [false], [0] and the
    empty string are falsy, everything else (every array and object too)
    is truthy. *)
Definition truthy (v : JSONValue) : bool :=
  match v with
  | JNull => false
  | JBool b => b
  | JNumber n => negb (n =? 0)%Z
  | JString s => nonEmpty s
  | JArray _ => true
  | JObject _ => true
  end.


Definition escapeChar (c : ascii) : string :=
  let n := nat_of_ascii c in
  if Ascii.eqb c dquote then String backslash (String dquote EmptyString)
  else if Ascii.eqb c backslash then String backslash (String backslash EmptyString)
  else if (n =? 8)%nat then String backslash "b"
  else if (n =? 9)%nat then String backslash "t"
  else if (n =? 10)%nat then String backslash "n"
  else if (n =? 12)%nat then String backslash "f"
  else if (n =? 13)%nat then String backslash "r"
  else if (n <? 32)%nat then
    String backslash
      (String "u" (String "0" (String "0"
         (String (hexDigit false (n / 16)%nat)
            (String (hexDigit false (n mod 16)%nat) EmptyString)))))
  else String c EmptyString.

Fixpoint escape (s : string) : string :=
  match s with
  | EmptyString => EmptyString
  | String c rest => escapeChar c ++ escape rest
  end.

Definition quote (s : string) : string :=
  String dquote (escape s ++ String dquote EmptyString).

Definition numberToString (n : Z) : string :=
  NilZero.string_of_int (Z.to_int n).

(** [JSON.stringify] on a JSON value (integers are printed in full, as the
    platform does below 10^21). *)
Fixpoint JSON_stringify (v : JSONValue) : string :=
  match v with
  | JNull => "null"
  | JBool b => if b then "true" else "false"
  | JNumber n => numberToString n
  | JString s => quote s
  | JArray items =>
      "[" ++ String.concat "," (List.map JSON_stringify items) ++ "]"
  | JObject members =>
      "{" ++ String.concat ","
               (List.map (fun m => match m with
                                   | (k, x) => quote k ++ ":" ++ JSON_stringify x
                                   end) members)
          ++ "}"
  end.

End Json.

(* ===================================================================== *)
(** ** [fetchJSON] *)
(* ===================================================================== *)

Module FetchJSON.
Import Text Json Url.

Local Open Scope string_scope.

(** Line numbers are those of [src/unnamed/part_003]. *)

(** [enum ERRORS] (lines 5 to 8). *)
Inductive ERRORS : Type := TAKE_TOO_LONG | TIME_OUT.

Definition text_of (e : ERRORS) : string :=
  match e with
  | TAKE_TOO_LONG => "Request take too long to complete"
  | TIME_OUT => "Request timeout"
  end.

(** [interface FetchJSONError extends Error] (lines 21 to 24). *)
Record FetchJSONError : Type :=
  { message : string; errorStatus : Z; errorStatusText : string }.

(** [buildFetchJSONError] (lines 26 to 43). *)
Definition buildFetchJSONError (msg : string) (status : Z) (statusText : string)
  : FetchJSONError :=
  {| message := msg; errorStatus := status; errorStatusText := statusText |}.

(** Why a promise was rejected: with an error [fetchJSON] built, or with
    one the platform threw ([fetch]'s [TypeError], [json()]'s
    [SyntaxError]). *)
Inductive Reason : Type :=
| Built (e : FetchJSONError)
| Thrown (name msg : string).

(** A settled promise. *)
Inductive Settled (A : Type) : Type :=
| Fulfilled (a : A)
| Rejected (r : Reason).
Arguments Fulfilled {A} a.
Arguments Rejected {A} r.

(** A [Headers] object: names compare without regard to case and the
    values of one name are joined with a comma and a space. *)
Definition Headers : Type := list (string * string).

Definition Headers_get (name : string) (h : Headers) : option string :=
  match List.filter (fun '(n, _) => String.eqb (toLowerCase n) (toLowerCase name)) h with
  | [] => None
  | found => Some (String.concat ", " (List.map snd found))
  end.

(** [interface HttpResponse<T> extends Response] (lines 10 to 12).  The
    body readers [text()] and [json()] are given by what their promises
    settle to. *)
Record HttpResponse : Type :=
  { url : string;
    status : Z;
    statusText : string;
    headers : Headers;
    text : Settled string;
    json : Settled JSONValue;
    parsedBody : option JSONValue }.

(** [Response.ok]: the status is in the range 200 to 299. *)
Definition ok (response : HttpResponse) : bool :=
  (200 <=? status response)%Z && (status response <=? 299)%Z.

Definition withParsedBody (v : JSONValue) (response : HttpResponse) : HttpResponse :=
  {| url := url response;
     status := status response;
     statusText := statusText response;
     headers := headers response;
     text := text response;
     json := json response;
     parsedBody := Some v |}.

(** What is left of the options once [body], [token], [headers] and
    [queryParams] are taken out (line 111): the method, if given, and
    whatever other native request options the caller passed. *)
Record CustomConfig : Type :=
  { method : option string; passthrough : gmap string string }.

(** [interface FetchJSONProps] (lines 14 to 19), as destructured on lines
    106 to 112. *)
Record FetchJSONProps : Type :=
  { body : option JSONValue;
    token : option string;
    customHeaders : option (gmap string string);
    queryParams : option IDictionary;
    customConfig : CustomConfig }.

(** [fetchJSON(endpoint)] with no options: the default [{}]. *)
Definition noProps : FetchJSONProps :=
  {| body := None; token := None; customHeaders := None; queryParams := None;
     customConfig := {| method := None; passthrough := ∅ |} |}.

(** The [RequestInit] handed to [fetch]. *)
Record RequestInit : Type :=
  { requestMethod : string;
    requestBody : option string;
    requestHeaders : gmap string string;
    requestOptions : gmap string string }.

(** Lines 115 to 126: [temp] (its method and body) and [headers]. *)
Definition prepare (props : FetchJSONProps)
  : (string * option string) * gmap string string :=
  let temp := ("GET", None) in
  let headers : gmap string string := ∅ in
  let headers :=
    match token props with
    | Some t => if nonEmpty t then <["Authorization" := "Bearer " ++ t]> headers else headers
    | None => headers
    end in
  match body props with
  | Some b =>
      if truthy b
      then (("POST", Some (JSON_stringify b)),
            <["Content-Type" := "application/json"]> headers)
      else (temp, headers)
  | None => (temp, headers)
  end.

(** Lines 128 to 131. *)
Definition query (props : FetchJSONProps) : string :=
  match queryParams props with
  | Some q => "?" ++ toQueryString q
  | None => EmptyString
  end.

(** Lines 133 to 137: [{ ...temp, headers: { ...headers, ...customHeaders },
    ...customConfig }]; a later spread wins. *)
Definition config (props : FetchJSONProps) : RequestInit :=
  let '((tempMethod, tempBody), headers) := prepare props in
  {| requestMethod := default tempMethod (method (customConfig props));
     requestBody := tempBody;
     requestHeaders := default ∅ (customHeaders props) ∪ headers;
     requestOptions := passthrough (customConfig props) |}.

(** The arguments of the call to [fetch] on line 146. *)
Definition request (endpoint : string) (props : FetchJSONProps) : string * RequestInit :=
  (endpoint ++ query props, config props).

(** *** The promise of lines 139 to 146 *)

(** What the host can deliver to the call: the timer of line 141 firing,
    or the [fetch] of line 146 settling. *)
Inductive Event : Type :=
| TimerFired
| FetchSettled (outcome : Settled HttpResponse).

(** One call in flight: whether its timer is armed, what the underlying
    [fetch] promise has settled to, and what the promise of line 139 has. *)
Record Call : Type :=
  { timerArmed : bool;
    network : option (Settled HttpResponse);
    outer : option (Settled HttpResponse) }.

(** [if (timeout !== undefined && timeout > 0) setTimeout(...)], then
    [fetch(...)]. *)
Definition start (timeout : option Z) : Call :=
  {| timerArmed := match timeout with Some t => (0 <? t)%Z | None => false end;
     network := None;
     outer := None |}.

(** [resolve] and [reject] do nothing on a promise that is settled. *)
Definition settle {A : Type} (current : option (Settled A)) (s : Settled A)
  : option (Settled A) :=
  match current with
  | None => Some s
  | Some _ => current
  end.

Definition timedOut : FetchJSONError :=
  buildFetchJSONError (text_of TAKE_TOO_LONG) 408 (text_of TIME_OUT).

Definition deliver (c : Call) (e : Event) : Call :=
  match e with
  | TimerFired =>
      if timerArmed c
      then {| timerArmed := false;
              network := network c;
              outer := settle (outer c) (Rejected (Built timedOut)) |}
      else c
  | FetchSettled outcome =>
      match network c with
      | None => {| timerArmed := timerArmed c;
                   network := Some outcome;
                   outer := settle (outer c) outcome |}
      | Some _ => c
      end
  end.

Definition deliverAll (events : list Event) (c : Call) : Call :=
  fold_left deliver events c.

(** *** The handler of lines 147 to 164 *)

Definition isJsonType (response : HttpResponse) : bool :=
  match Headers_get "content-type" (headers response) with
  | Some contentType => nonEmpty contentType && includes contentType "application/json"
  | None => false
  end.

Definition onResponse (response : HttpResponse) : Settled HttpResponse :=
  if negb (ok response) then
    match text response with
    | Fulfilled t =>
        Rejected (Built (buildFetchJSONError t (status response) (statusText response)))
    | Rejected r => Rejected r
    end
  else
    let parsedBodyPromise :=
      if isJsonType response then json response
      else match text response with
           | Fulfilled t => Fulfilled (JString t)
           | Rejected r => Rejected r
           end in
    match parsedBodyPromise with
    | Fulfilled v => Fulfilled (withParsedBody v response)
    | Rejected r => Rejected r
    end.

(** [promise.then(onResponse)]: a rejection passes through. *)
Definition andThen (p : option (Settled HttpResponse)) : option (Settled HttpResponse) :=
  match p with
  | None => None
  | Some (Fulfilled response) => Some (onResponse response)
  | Some (Rejected r) => Some (Rejected r)
  end.

(** [fetchJSON] (lines 104 to 165): the request it issues, and what the
    promise it returns has settled to once the host has delivered
    [events] ([None]: still pending). *)
Definition fetchJSON (endpoint : string) (props : FetchJSONProps)
  (timeout : option Z) (events : list Event)
  : (string * RequestInit) * option (Settled HttpResponse) :=
  (request endpoint props, andThen (outer (deliverAll events (start timeout)))).

(** *** Vocabulary and sample calls for the properties below *)

(** The caller's own header of a given name, if any. *)
Definition customHeader (name : string) (props : FetchJSONProps) : option string :=
  default ∅ (customHeaders props) !! name.

(** The same options with no body at all. *)
Definition withoutBody (props : FetchJSONProps) : FetchJSONProps :=
  {| body := None;
     token := token props;
     customHeaders := customHeaders props;
     queryParams := queryParams props;
     customConfig := customConfig props |}.

(** The response of the test "should reject if fetch operation was not
    successful due to authentication". *)
Definition unauthorized : HttpResponse :=
  {| url := "https://fake.com/";
     status := 401;
     statusText := "Unauthorized";
     headers := [("content-type", "application/json")];
     text := Fulfilled (String dquote (String dquote EmptyString));
     json := Fulfilled (JString EmptyString);
     parsedBody := None |}.


(** The response of the default request resolver: [{ one: "two" }] as JSON. *)
Definition oneTwo : HttpResponse :=
  {| url := "https://fake.com/";
     status := 200;
     statusText := "OK";
     headers := [("content-type", "application/json")];
     text := Fulfilled ("{" ++ quote "one" ++ ":" ++ quote "two" ++ "}");
     json := Fulfilled (JObject [("one", JString "two")]);
     parsedBody := None |}.

(** A call that posts an object and brings its own content type. *)
Definition formPost : FetchJSONProps :=
  {| body := Some (JObject [("three", JString "four")]);
     token := None;
     customHeaders := Some {[ "Content-Type" := "application/x-www-form-urlencoded" ]};
     queryParams := None;
     customConfig := {| method := None; passthrough := ∅ |} |}.

(** The call of the test "should PATCH a JSON object from fake API". *)
Definition patchCall : FetchJSONProps :=
  {| body := Some (JObject [("three", JString "four")]);
     token := None;
     customHeaders := None;
     queryParams := None;
     customConfig := {| method := Some "PATCH"; passthrough := ∅ |} |}.

(** A call with the body [0] and a token. *)
Definition zeroBody : FetchJSONProps :=
  {| body := Some (JNumber 0);
     token := Some "12345";
     customHeaders := None;
     queryParams := None;
     customConfig := {| method := None; passthrough := ∅ |} |}.


(** *** Vocabulary for further properties *)

Definition isTimer (e : Event) : bool :=
  match e with TimerFired => true | FetchSettled _ => false end.

(** The events of the network alone. *)
Definition networkEvents (events : list Event) : list Event :=
  List.filter (fun e => negb (isTimer e)) events.

(** A timeout that arms no timer on line 140: none given, or not positive. *)
Definition armsNoTimer (timeout : option Z) : Prop :=
  match timeout with
  | None => True
  | Some t => (t <= 0)%Z
  end.

End FetchJSON.

(* ===================================================================== *)
(** * Properties *)
(* ===================================================================== *)

(** ** The counter and its use cases *)

Module UseCasesFacts.
Import CounterModel UseCases.

Lemma counter_eta (c : Counter) : c = create (value c).
Proof. destruct c; reflexivity. Qed.



Lemma step_counter (w : World) (s : Step) :
  counter (step w s) = localEffect s (counter w).
Proof.
  destruct s as [| |ms]; try reflexivity.
  unfold step, advanceTimersByTime.
  destruct (timer w) as [p|]; [|reflexivity].
  destruct (deadline p <=? now w + ms)%nat; reflexivity.
Qed.





(** *** Local state follows every call at once *)

Lemma step_setCounterCalls (w : World) (s : Step) :
  setCounterCalls (step w s) = setCounterCalls w ++ locals [s] (counter w).
Proof.
  destruct s as [| |ms]; try reflexivity.
  unfold step, advanceTimersByTime. simpl. rewrite app_nil_r.
  destruct (timer w) as [p|]; [|reflexivity].
  destruct (deadline p <=? now w + ms)%nat; reflexivity.
Qed.

Lemma run_local (steps : list Step) :
  forall w,
    counter (run steps w) = final steps (counter w)
    /\ setCounterCalls (run steps w) = setCounterCalls w ++ locals steps (counter w).
Proof.
  induction steps as [|s steps IH]; intros w.
  - simpl. now rewrite app_nil_r.
  - destruct (IH (step w s)) as [Hc Hl].
    change (run (s :: steps) w) with (run steps (step w s)).
    rewrite Hc, Hl, step_counter, step_setCounterCalls.
    split; [reflexivity|].
    rewrite <- app_assoc. f_equal.
    destruct s; reflexivity.
Qed.

Lemma final_callsOf (steps : list Step) :
  forall c, final steps c = final (callsOf steps) c.
Proof.
  induction steps as [|s steps IH]; intros c; [reflexivity|].
  destruct s; simpl; apply IH.
Qed.

Lemma locals_callsOf (steps : list Step) :
  forall c, locals steps c = locals (callsOf steps) c.
Proof.
  induction steps as [|s steps IH]; intros c; [reflexivity|].
  destruct s; simpl; now rewrite IH.
Qed.

Lemma locals_app (xs ys : list Step) :
  forall c, locals (xs ++ ys) c = locals xs c ++ locals ys (final xs c).
Proof.
  induction xs as [|s xs IH]; intros c; [reflexivity|].
  destruct s; simpl; now rewrite IH.
Qed.

Lemma final_app (xs ys : list Step) (c : Counter) :
  final (xs ++ ys) c = final ys (final xs c).
Proof. unfold final. apply fold_left_app. Qed.

Lemma map_seq_S {A : Type} (f : nat -> A) (a n : nat) :
  List.map f (seq (S a) n) = List.map (fun i => f (S i)) (seq a n).
Proof. now rewrite <- seq_shift, List.map_map. Qed.

Lemma final_increments (n : nat) :
  forall c, final (repeat Increment n) c = create (value c + Z.of_nat n).
Proof.
  induction n as [|n IH]; intros c.
  - simpl. rewrite Z.add_0_r. apply counter_eta.
  - change (final (repeat Increment (S n)) c)
      with (final (repeat Increment n) (increment c)).
    rewrite IH. unfold create, increment; simpl. f_equal. lia.
Qed.

Lemma locals_increments (n : nat) :
  forall c, locals (repeat Increment n) c = climb (value c) n.
Proof.
  induction n as [|n IH]; intros c; [reflexivity|].
  change (locals (repeat Increment (S n)) c)
    with (increment c :: locals (repeat Increment n) (increment c)).
  rewrite IH. unfold climb. cbn [seq List.map]. rewrite (map_seq_S _ 1).
  apply (f_equal2 cons).
  - unfold increment, create. simpl. f_equal.
  - apply List.map_ext. intros i. unfold create, increment. cbn [value]. f_equal. lia.
Qed.

Lemma final_decrements (n : nat) :
  forall c, Z.of_nat n <= value c ->
    final (repeat Decrement n) c = create (value c - Z.of_nat n).
Proof.
  induction n as [|n IH]; intros c Hc.
  - simpl. rewrite Z.sub_0_r. apply counter_eta.
  - change (final (repeat Decrement (S n)) c)
      with (final (repeat Decrement n) (decrement c)).
    rewrite IH; unfold create, decrement; simpl; [f_equal|]; lia.
Qed.

Lemma locals_decrements (n : nat) :
  forall c, Z.of_nat n <= value c ->
    locals (repeat Decrement n) c = descend (value c) n.
Proof.
  induction n as [|n IH]; intros c Hc; [reflexivity|].
  change (locals (repeat Decrement (S n)) c)
    with (decrement c :: locals (repeat Decrement n) (decrement c)).
  rewrite IH by (unfold decrement; simpl; lia).
  unfold descend. cbn [seq List.map]. rewrite (map_seq_S _ 1).
  apply (f_equal2 cons).
  - unfold decrement, create. simpl. f_equal; lia.
  - apply List.map_ext. intros i. unfold create, decrement. cbn [value]. f_equal. lia.
Qed.

(** [C2] From a store holding any valid counter, a run whose use-case calls
    are [n] increments followed by [n] decrements -- with the clock advanced
    by any amounts in between, so with remote writes pending or fired at any
    point -- brings the store's counter back to its original value, and the
    calls to [store.setCounter] it makes are exactly one per use-case call,
    with the new values [v+1 .. v+n, v+n-1 .. v] in that order; each single
    call hands its new value to [store.setCounter] within the call itself,
    whatever timer is pending. *)
Theorem increments_then_decrements_restore (n : nat) (steps : list Step) (w : World) :
  valid (counter w) ->
  callsOf steps = repeat Increment n ++ repeat Decrement n ->
  counter (run steps w) = counter w
  /\ setCounterCalls (run steps w)
     = setCounterCalls w
       ++ climb (value (counter w)) n
       ++ descend (value (counter w) + Z.of_nat n) n
  /\ (forall w',
        counter (incrementCounterUseCase w') = increment (counter w')
        /\ setCounterCalls (incrementCounterUseCase w')
           = setCounterCalls w' ++ [increment (counter w')]
        /\ counter (decrementCounterUseCase w') = decrement (counter w')
        /\ setCounterCalls (decrementCounterUseCase w')
           = setCounterCalls w' ++ [decrement (counter w')]).
Proof.
  intros Hv Hcalls. unfold valid in Hv.
  destruct (run_local steps w) as [Hc Hl].
  rewrite Hc, Hl, final_callsOf, locals_callsOf, Hcalls.
  rewrite final_app, locals_app, final_increments, locals_increments.
  rewrite final_decrements, locals_decrements by (simpl; lia).
  simpl value. split; [|split].
  - rewrite (counter_eta (counter w)) at 2. unfold create. f_equal. lia.
  - reflexivity.
  - intros w'. repeat split.
Qed.

Lemma increments_then_decrements_restore_witness :
  counter (run [Increment; Advance 100; Increment; Advance 700; Decrement; Decrement]
               (freshWorld (create 3)))
  = create 3
  /\ setCounterCalls
       (run [Increment; Advance 100; Increment; Advance 700; Decrement; Decrement]
            (freshWorld (create 3)))
     = [create 4; create 5; create 4; create 3].
Proof.
  destruct (increments_then_decrements_restore 2
              [Increment; Advance 100; Increment; Advance 700; Decrement; Decrement]
              (freshWorld (create 3))) as (Hc & Hl & _).
  - unfold valid. simpl. lia.
  - reflexivity.
  - split; [exact Hc | exact Hl].
Defined.

(** *** Debounced remote writes *)
















End UseCasesFacts.

(** ** The simulated counter service *)

Module CounterServiceFacts.
Import CounterModel CounterService.

Lemma now_bump (s : Service) : now (bump s) = now s.
Proof. reflexivity. Qed.

Lemma timers_bump (s : Service) : timers (bump s) = timers s.
Proof. reflexivity. Qed.

Lemma fire_setTimers (t : Timer) (q : list Timer) (s : Service) :
  fire t (setTimers q s) = setTimers q (fire t s).
Proof. unfold fire. destruct (callback t); reflexivity. Qed.

Lemma fire_bump (t : Timer) (s : Service) : fire t (bump s) = bump (fire t s).
Proof. unfold fire. destruct (callback t); reflexivity. Qed.

(** [fireDue] takes the queue as an argument: the state's own is not read. *)
Lemma fireDue_setTimers (target : nat) (q x : list Timer) :
  forall s, fireDue target q (setTimers x s) = fireDue target q s.
Proof.
  induction q as [|t q IH]; intros s; simpl; [reflexivity|].
  destruct (due t <=? target)%nat; [|reflexivity].
  now rewrite fire_setTimers, IH.
Qed.

Lemma fireDue_bump (target : nat) (q : list Timer) :
  forall s, fireDue target q (bump s) = bump (fireDue target q s).
Proof.
  induction q as [|t q IH]; intros s; simpl; [reflexivity|].
  destruct (due t <=? target)%nat; [|reflexivity].
  now rewrite fire_bump, IH.
Qed.

Lemma ordered_weaken (q : list Timer) :
  forall lo lo' hi hi',
    (lo' <= lo)%nat -> (hi <= hi')%nat -> ordered lo hi q -> ordered lo' hi' q.
Proof.
  induction q as [|t q IH]; intros lo lo' hi hi' Hlo Hhi; simpl; [auto|].
  intros [Ht Hq]. split; [lia|]. eapply IH; [| |exact Hq]; lia.
Qed.

Lemma ordered_due (q : list Timer) :
  forall lo hi, ordered lo hi q -> Forall (fun t => (lo <= due t <= hi)%nat) q.
Proof.
  induction q as [|t q IH]; intros lo hi; simpl; [constructor|].
  intros [Ht Hq]. constructor; [exact Ht|].
  eapply List.Forall_impl; [|apply (IH _ _ Hq)]. simpl. lia.
Qed.

(** A timer due no earlier than all that are queued goes to the back. *)
Lemma enqueue_last (t : Timer) (q : list Timer) :
  Forall (fun u => (due u <= due t)%nat) q -> enqueue t q = q ++ [t].
Proof.
  induction 1 as [|u q Hu _ IH]; simpl; [reflexivity|].
  destruct (Nat.leb_spec (due u) (due t)); [now rewrite IH | lia].
Qed.

Lemma ordered_snoc (t : Timer) (q : list Timer) :
  forall lo hi,
    ordered lo hi q -> (lo <= due t)%nat -> (hi <= due t)%nat ->
    ordered lo (due t) (q ++ [t]).
Proof.
  induction q as [|u q IH]; intros lo hi; simpl.
  - intros _ Hlo _. split; [lia | exact I].
  - intros [Hu Hq] Hlo Hhi. split; [lia|]. apply (IH _ hi); [exact Hq|lia|lia].
Qed.

(** Timers that are all due fire one after the other. *)
Lemma fireDue_app (target : nat) (q r : list Timer) :
  Forall (fun t => (due t <= target)%nat) q ->
  forall s, fireDue target (q ++ r) s = fireDue target r (fireDue target q s).
Proof.
  induction 1 as [|t q Ht _ IH]; intros s; simpl.
  - now rewrite fireDue_setTimers.
  - destruct (Nat.leb_spec (due t) target); [apply IH | lia].
Qed.

(** A timer that is not due yet waits behind the others. *)
Lemma fireDue_snoc_later (target : nat) (t : Timer) (q : list Timer) :
  (target < due t)%nat ->
  forall s,
    fireDue target (q ++ [t]) s
    = setTimers (timers (fireDue target q s) ++ [t]) (fireDue target q s).
Proof.
  intros Ht. induction q as [|u q IH]; intros s; simpl.
  - destruct (Nat.leb_spec (due t) target); [lia | reflexivity].
  - destruct (due u <=? target)%nat; [apply IH | reflexivity].
Qed.

Lemma fireDue_leaves (target : nat) (q : list Timer) :
  forall lo hi s,
    ordered lo hi q -> ordered (S target) hi (timers (fireDue target q s)).
Proof.
  induction q as [|t q IH]; intros lo hi s; simpl; [auto|].
  intros [Ht Hq].
  destruct (Nat.leb_spec (due t) target).
  - eapply IH, Hq.
  - simpl. split; [lia | exact Hq].
Qed.

Lemma fireDue_all (target : nat) (q : list Timer) :
  Forall (fun t => (due t <= target)%nat) q ->
  forall s, timers (fireDue target q s) = [].
Proof.
  induction 1 as [|t q Ht _ IH]; intros s; simpl; [reflexivity|].
  destruct (Nat.leb_spec (due t) target); [apply IH | lia].
Qed.

Lemma wellTimed_all_due (s : Service) (ms : nat) :
  wellTimed s -> (1000 <= ms)%nat ->
  Forall (fun t => (due t <= now s + ms)%nat) (timers s).
Proof.
  intros Hs Hms. eapply List.Forall_impl; [|apply (ordered_due _ _ _ Hs)].
  simpl. lia.
Qed.

(** Once the delay has passed nothing is left in the queue. *)
Lemma advance_drains (s : Service) (ms : nat) :
  wellTimed s -> (1000 <= ms)%nat -> timers (advanceTimersByTime ms s) = [].
Proof.
  intros Hs Hms. unfold advanceTimersByTime. simpl.
  apply fireDue_all. now apply wellTimed_all_due.
Qed.

Lemma advance_idle (s : Service) (ms : nat) :
  timers s = [] ->
  count (advanceTimersByTime ms s) = count s
  /\ resolved (advanceTimersByTime ms s) = resolved s.
Proof. unfold advanceTimersByTime. intros ->. split; reflexivity. Qed.

(** A callback set 1000 ms ahead in a well-timed service: before the
    delay has passed it waits at the back of the queue ... *)
Lemma set_then_advance_early (cb : Callback) (s : Service) (ms : nat) :
  wellTimed s -> (ms < 1000)%nat ->
  advanceTimersByTime ms (setTimeout cb 1000 (bump s))
  = setTimers
      (timers (advanceTimersByTime ms s)
         ++ [{| due := (now s + 1000)%nat; callback := cb |}])
      (bump (advanceTimersByTime ms s)).
Proof.
  intros Hs Hms. unfold advanceTimersByTime, setTimeout.
  cbn [now timers setTimers].
  rewrite ?now_bump, ?timers_bump.
  rewrite enqueue_last.
  2:{ eapply List.Forall_impl; [|apply (ordered_due _ _ _ Hs)]. simpl. lia. }
  rewrite fireDue_setTimers, fireDue_snoc_later by (simpl; lia).
  rewrite fireDue_bump. reflexivity.
Qed.

(** ... and once it has passed, the callback has run, after every timer
    that was queued before it. *)
Lemma set_then_advance_late (cb : Callback) (s : Service) (ms : nat) :
  wellTimed s -> (1000 <= ms)%nat ->
  advanceTimersByTime ms (setTimeout cb 1000 (bump s))
  = fire {| due := (now s + 1000)%nat; callback := cb |}
         (bump (advanceTimersByTime ms s)).
Proof.
  intros Hs Hms.
  pose proof (advance_drains s ms Hs Hms) as Hdrained.
  unfold advanceTimersByTime in *. unfold setTimeout.
  cbn [now timers setTimers setNow] in *.
  rewrite ?now_bump, ?timers_bump.
  rewrite enqueue_last.
  2:{ eapply List.Forall_impl; [|apply (ordered_due _ _ _ Hs)]. simpl. lia. }
  rewrite fireDue_setTimers, fireDue_app by now apply wellTimed_all_due.
  rewrite fireDue_bump.
  cbn [fireDue due].
  destruct (Nat.leb_spec (now s + 1000) (now s + ms)); [|lia].
  unfold fire. cbn [callback due].
  destruct cb; cbn; rewrite Hdrained; reflexivity.
Qed.

Lemma wellTimed_set (cb : Callback) (s : Service) :
  wellTimed s -> wellTimed (setTimeout cb 1000 (bump s)).
Proof.
  intros Hs. unfold wellTimed, setTimeout.
  cbn [now timers setTimers].
  rewrite ?now_bump, ?timers_bump.
  rewrite enqueue_last.
  2:{ eapply List.Forall_impl; [|apply (ordered_due _ _ _ Hs)]. simpl. lia. }
  apply (ordered_snoc {| due := now s + 1000; callback := cb |} _ _ _ Hs); simpl; lia.
Qed.

Lemma wellTimed_advance (ms : nat) (s : Service) :
  wellTimed s -> wellTimed (advanceTimersByTime ms s).
Proof.
  intros Hs. unfold wellTimed, advanceTimersByTime. cbn [now timers setNow].
  eapply ordered_weaken; [| |eapply fireDue_leaves, Hs]; lia.
Qed.

(** Every state the service reaches from its initial one is well timed. *)
Lemma wellTimed_reachable (ops : list Op) : wellTimed (runOps ops initial).
Proof.
  assert (H : forall s, wellTimed s -> wellTimed (runOps ops s)).
  { induction ops as [|o ops IH]; intros s Hs; [exact Hs|].
    apply IH. destruct o as [|c|ms]; simpl.
    - now apply wellTimed_set.
    - now apply wellTimed_set.
    - now apply wellTimed_advance. }
  apply H. exact I.
Qed.

Lemma getCounter_unfold (s : Service) :
  getCounter s = (setTimeout (ResolveCount (nextPromise s)) 1000 (bump s), nextPromise s).
Proof. reflexivity. Qed.

Lemma updateCounter_unfold (c : Counter) (s : Service) :
  updateCounter c s
  = (setTimeout (StoreThenResolve (nextPromise s) c) 1000 (bump s), nextPromise s).
Proof. reflexivity. Qed.

(** [C9] Every operation of the service takes effect exactly 1000 ms after
    the call.  In any state the service can be in: before 1000 ms have
    passed, neither a [getCounter()] nor an [updateCounter(c)] has resolved
    anything or changed [count]; once they have passed, the promise of
    [getCounter()] has been resolved, at the call time plus 1000, with a
    counter whose value is the stored [count] (in an idle service, the
    [count] at the call), and [updateCounter(c)] has stored [c.value] in
    [count] and resolved its promise, at the call time plus 1000, with a
    counter of value [c.value].  So a [getCounter()] made after an awaited
    [updateCounter(c)] resolves, 1000 ms after it is made, with [c.value]. *)
Theorem service_answers_after_one_second (s : Service) (c : Counter) :
  wellTimed s ->
  let g := fst (getCounter s) in
  let p := snd (getCounter s) in
  let u := fst (updateCounter c s) in
  let q := snd (updateCounter c s) in
  (forall ms, (ms < 1000)%nat ->
     resolved (advanceTimersByTime ms g) = resolved (advanceTimersByTime ms s)
     /\ count (advanceTimersByTime ms g) = count (advanceTimersByTime ms s)
     /\ resolved (advanceTimersByTime ms u) = resolved (advanceTimersByTime ms s)
     /\ count (advanceTimersByTime ms u) = count (advanceTimersByTime ms s))
  /\ (forall ms, (1000 <= ms)%nat ->
       resolved (advanceTimersByTime ms g)
       = resolved (advanceTimersByTime ms s)
         ++ [{| promise := p;
                resolvedAt := (now s + 1000)%nat;
                result := create (count (advanceTimersByTime ms s)) |}]
       /\ count (advanceTimersByTime ms g) = count (advanceTimersByTime ms s)
       /\ resolved (advanceTimersByTime ms u)
          = resolved (advanceTimersByTime ms s)
            ++ [{| promise := q;
                   resolvedAt := (now s + 1000)%nat;
                   result := create (value c) |}]
       /\ count (advanceTimersByTime ms u) = value c)
  /\ (timers s = [] ->
      forall ms,
        count (advanceTimersByTime ms s) = count s
        /\ resolved (advanceTimersByTime ms s) = resolved s)
  /\ (forall await ms, (1000 <= await)%nat -> (1000 <= ms)%nat ->
       let s' := advanceTimersByTime await u in
       resolved (advanceTimersByTime ms (fst (getCounter s')))
       = resolved s'
         ++ [{| promise := snd (getCounter s');
                resolvedAt := (now s' + 1000)%nat;
                result := create (value c) |}]).
Proof.
  intros Hs g p u q. subst g p u q.
  rewrite getCounter_unfold, updateCounter_unfold. cbn [fst snd].
  assert (Hlate : forall ms, (1000 <= ms)%nat ->
            resolved (advanceTimersByTime ms
                        (setTimeout (StoreThenResolve (nextPromise s) c) 1000 (bump s)))
            = resolved (advanceTimersByTime ms s)
              ++ [{| promise := nextPromise s;
                     resolvedAt := (now s + 1000)%nat;
                     result := create (value c) |}]
            /\ count (advanceTimersByTime ms
                        (setTimeout (StoreThenResolve (nextPromise s) c) 1000 (bump s)))
               = value c).
  { intros ms Hms. rewrite set_then_advance_late by assumption.
    split; reflexivity. }
  split; [|split; [|split]].
  - intros ms Hms. rewrite !set_then_advance_early by assumption.
    repeat split.
  - intros ms Hms. destruct (Hlate ms Hms) as [Hr Hc].
    rewrite Hr, Hc. rewrite set_then_advance_late by assumption.
    repeat split.
  - intros Hidle ms. now apply advance_idle.
  - intros await ms Hawait Hms.
    set (s' := advanceTimersByTime await _).
    assert (Hs' : wellTimed s') by now apply wellTimed_advance, wellTimed_set.
    assert (Hidle : timers s' = []).
    { apply advance_drains; [now apply wellTimed_set | exact Hawait]. }
    assert (Hcount : count s' = value c) by apply (Hlate await Hawait).
    rewrite getCounter_unfold. cbn [fst snd].
    rewrite set_then_advance_late by assumption.
    destruct (advance_idle s' ms Hidle) as [Hc Hr].
    unfold fire. cbn [callback due resolve resolved bump newPromise fst count].
    now rewrite Hr, Hc, Hcount.
Qed.

Lemma service_answers_after_one_second_witness :
  wellTimed initial
  /\ resolved (advanceTimersByTime 1000 (fst (updateCounter (create 5) initial)))
     = [{| promise := 0%nat; resolvedAt := 1000%nat; result := create 5 |}]
  /\ resolved
       (advanceTimersByTime 1000
          (fst (getCounter
                  (advanceTimersByTime 1000 (fst (updateCounter (create 5) initial))))))
     = [{| promise := 0%nat; resolvedAt := 1000%nat; result := create 5 |};
        {| promise := 1%nat; resolvedAt := 2000%nat; result := create 5 |}].
Proof.
  assert (Hinit : wellTimed initial) by exact I.
  destruct (service_answers_after_one_second initial (create 5) Hinit)
    as (_ & Hlate & _ & Hseq).
  split; [exact Hinit|]. split.
  - destruct (Hlate 1000%nat) as (_ & _ & Hr & _); [lia|]. exact Hr.
  - apply (Hseq 1000%nat 1000%nat); lia.
Defined.

End CounterServiceFacts.

(** ** [toQueryString] *)

Module UrlFacts.
Import Text Url.

Local Open Scope string_scope.

Local Abbreviation join := (String.concat "&").

Lemma nonEmpty_append (a b : string) : nonEmpty a = true -> nonEmpty (a ++ b) = true.
Proof. destruct a; [discriminate | reflexivity]. Qed.

Lemma pair_nonEmpty (key val : string) : nonEmpty (pair key val) = true.
Proof.
  unfold pair. destruct (encodeURIComponent key); reflexivity.
Qed.

Lemma filter_nonEmpty_all (l : list string) :
  Forall (fun x => nonEmpty x = true) l -> List.filter nonEmpty l = l.
Proof.
  induction 1 as [|x l Hx _ IH]; simpl; [reflexivity|].
  now rewrite Hx, IH.
Qed.

Lemma join_cons (x : string) (l : list string) :
  join (x :: l) = match l with [] => x | _ => x ++ "&" ++ join l end.
Proof. destruct l; reflexivity. Qed.

(** Joining strings none of which is empty gives the empty string only
    for the empty list. *)
Lemma join_nonEmpty (l : list string) :
  Forall (fun x => nonEmpty x = true) l -> l <> [] -> nonEmpty (join l) = true.
Proof.
  intros Hl Hne. destruct Hl as [|x l Hx _]; [congruence|].
  rewrite join_cons. destruct l; [exact Hx | now apply nonEmpty_append].
Qed.

Lemma append_cons (ch : ascii) (a b : string) : String ch a ++ b = String ch (a ++ b).
Proof. reflexivity. Qed.

Lemma append_assoc (a b c : string) : (a ++ b) ++ c = a ++ b ++ c.
Proof.
  induction a as [|ch a IH]; [reflexivity|].
  now rewrite !append_cons, IH.
Qed.

Lemma join_app (l m : list string) :
  l <> [] -> m <> [] -> join (l ++ m)%list = join l ++ "&" ++ join m.
Proof.
  induction l as [|x l IH]; intros Hl Hm; [congruence|].
  destruct l as [|y l].
  - simpl app. rewrite join_cons. destruct m; [congruence | reflexivity].
  - change ((x :: y :: l) ++ m)%list with (x :: ((y :: l) ++ m))%list.
    rewrite join_cons. simpl app at 1.
    rewrite IH by (try exact Hm; discriminate).
    rewrite (join_cons x (y :: l)).
    now rewrite !append_assoc.
Qed.

(** Joining the non-empty joins of several lists is joining their
    concatenation. *)
Lemma join_joins (ls : list (list string)) :
  Forall (Forall (fun x => nonEmpty x = true)) ls ->
  join (List.filter nonEmpty (List.map join ls)) = join (List.concat ls).
Proof.
  induction 1 as [|l ls Hl Hls IH]; [reflexivity|].
  assert (Hall : Forall (fun x => nonEmpty x = true) (List.concat ls)).
  { clear IH. induction Hls as [|m ls Hm _ IHls]; simpl; [constructor|].
    apply Forall_app. now split. }
  assert (Hkept : Forall (fun x => nonEmpty x = true)
                         (List.filter nonEmpty (List.map join ls))).
  { apply List.Forall_forall. intros x Hx. now apply List.filter_In in Hx. }
  cbn [List.map List.filter List.concat].
  destruct l as [|x l].
  - exact IH.
  - rewrite (join_nonEmpty (x :: l) Hl) by discriminate.
    rewrite join_cons.
    destruct (List.filter nonEmpty (List.map join ls)) as [|r rs] eqn:Hrs.
    + destruct (List.concat ls) as [|c cs] eqn:Hcs.
      * now rewrite app_nil_r.
      * exfalso.
        assert (Hne : nonEmpty (join (c :: cs)) = true)
          by (apply join_nonEmpty; [exact Hall | discriminate]).
        rewrite <- IH in Hne. discriminate.
    + destruct (List.concat ls) as [|c cs] eqn:Hcs.
      * exfalso.
        assert (Hne : nonEmpty (join (r :: rs)) = true)
          by (apply join_nonEmpty; [exact Hkept | discriminate]).
        rewrite IH in Hne. discriminate.
      * rewrite join_app by discriminate. now rewrite IH.
Qed.

Lemma pairs_nonEmpty (key : string) (l : list string) :
  Forall (fun x => nonEmpty x = true) (List.map (fun val => pair key val) l).
Proof.
  apply List.Forall_forall. intros x Hx.
  apply List.in_map_iff in Hx as (v & <- & _). apply pair_nonEmpty.
Qed.

Lemma defined_pairs (obj : IDictionary) :
  List.concat
    (List.map pairsOfDefined
       (List.filter (fun '(_, value) => negb (isUndefined value)) obj))
  = List.flat_map pairsOf obj.
Proof.
  induction obj as [|[key value] obj IH]; [reflexivity|].
  destruct value as [s|items|]; simpl; now rewrite IH.
Qed.





End UrlFacts.

(** ** [fetchJSON] *)

Module FetchJSONFacts.
Import Text Json Url FetchJSON.

Local Open Scope string_scope.

(** *** The race between the timer and the network *)

(** A promise that is settled stays as it is. *)
Lemma outer_settled (events : list Event) :
  forall (c : Call) (o : Settled HttpResponse),
    outer c = Some o -> outer (deliverAll events c) = Some o.
Proof.
  induction events as [|e events IH]; intros c o Ho; [exact Ho|].
  apply IH. destruct e as [|outcome]; simpl.
  - destruct (timerArmed c); [|exact Ho]. simpl. now rewrite Ho.
  - destruct (network c); [exact Ho|]. simpl. now rewrite Ho.
Qed.

Lemma start_armed (timeout : Z) : (0 < timeout)%Z -> timerArmed (start (Some timeout)) = true.
Proof. intros H. simpl. now apply Z.ltb_lt. Qed.

(** [C5] When the timeout is a positive number and the timer fires before
    the underlying [fetch] has settled, the promise [fetchJSON] returns is
    rejected with the error whose message is [ERRORS.TAKE_TOO_LONG] and whose
    status is 408, whatever happens afterwards.  The timer firing does not
    touch the network call: it is still pending right after, and a response
    or failure that arrives later still settles it, without changing the
    outcome of [fetchJSON]. *)
Theorem timeout_rejects_with_status_408
  (endpoint : string) (props : FetchJSONProps) (timeout : Z) (later : list Event) :
  (0 < timeout)%Z ->
  snd (fetchJSON endpoint props (Some timeout) (TimerFired :: later))
  = Some (Rejected (Built {| message := "Request take too long to complete";
                             errorStatus := 408;
                             errorStatusText := "Request timeout" |}))
  /\ network (deliver (start (Some timeout)) TimerFired) = None
  /\ (forall outcome : Settled HttpResponse,
        network (deliverAll [TimerFired; FetchSettled outcome] (start (Some timeout)))
        = Some outcome
        /\ snd (fetchJSON endpoint props (Some timeout)
                  (TimerFired :: FetchSettled outcome :: later))
           = snd (fetchJSON endpoint props (Some timeout) [TimerFired])).
Proof.
  intros Hpos.
  assert (Hfired : outer (deliver (start (Some timeout)) TimerFired)
                   = Some (Rejected (Built timedOut))).
  { unfold deliver. now rewrite (start_armed timeout Hpos). }
  assert (Hall : forall events,
             snd (fetchJSON endpoint props (Some timeout) (TimerFired :: events))
             = Some (Rejected (Built timedOut))).
  { intros events. unfold fetchJSON. cbn [snd].
    change (deliverAll (TimerFired :: events) (start (Some timeout)))
      with (deliverAll events (deliver (start (Some timeout)) TimerFired)).
    now rewrite (outer_settled events _ _ Hfired). }
  split; [apply Hall|]. split.
  - unfold deliver. now rewrite (start_armed timeout Hpos).
  - intros outcome. split; [|now rewrite !Hall].
    unfold deliverAll. cbn [fold_left]. unfold deliver at 2.
    rewrite (start_armed timeout Hpos). reflexivity.
Qed.

Lemma timeout_rejects_with_status_408_witness :
  snd (fetchJSON "https://fake.com" noProps (Some 1000%Z) [TimerFired])
  = Some (Rejected (Built {| message := "Request take too long to complete";
                             errorStatus := 408;
                             errorStatusText := "Request timeout" |})).
Proof.
  apply (timeout_rejects_with_status_408 "https://fake.com" noProps 1000 []).
  reflexivity.
Defined.

(** *** Responses *)

Lemma response_first (endpoint : string) (props : FetchJSONProps)
  (timeout : option Z) (response : HttpResponse) (later : list Event) :
  snd (fetchJSON endpoint props timeout (FetchSettled (Fulfilled response) :: later))
  = Some (onResponse response).
Proof.
  unfold fetchJSON. cbn [snd].
  change (deliverAll (FetchSettled (Fulfilled response) :: later) (start timeout))
    with (deliverAll later (deliver (start timeout) (FetchSettled (Fulfilled response)))).
  rewrite (outer_settled later _ (Fulfilled response)); reflexivity.
Qed.

Lemma not_ok (response : HttpResponse) :
  (status response < 200 \/ 299 < status response)%Z -> ok response = false.
Proof. unfold ok. intros H. apply andb_false_iff. rewrite !Z.leb_gt. lia. Qed.

Lemma is_ok (response : HttpResponse) :
  (200 <= status response <= 299)%Z -> ok response = true.
Proof. unfold ok. intros H. apply andb_true_iff. rewrite !Z.leb_le. lia. Qed.

(** [C6] When the response [fetch] delivers has a status outside 200..299,
    the promise [fetchJSON] returns is rejected, never fulfilled; and with
    the body text read, the error it is rejected with has the response's
    status as [status], the response's status text as [statusText] and the
    body text as message. *)
Theorem http_error_rejects_with_status
  (endpoint : string) (props : FetchJSONProps) (timeout : option Z)
  (response : HttpResponse) (later : list Event) :
  (status response < 200 \/ 299 < status response)%Z ->
  (exists reason,
      snd (fetchJSON endpoint props timeout
             (FetchSettled (Fulfilled response) :: later))
      = Some (Rejected reason))
  /\ (forall bodyText : string,
        text response = Fulfilled bodyText ->
        snd (fetchJSON endpoint props timeout
               (FetchSettled (Fulfilled response) :: later))
        = Some (Rejected (Built {| message := bodyText;
                                   errorStatus := status response;
                                   errorStatusText := statusText response |}))).
Proof.
  intros Hstatus. rewrite response_first. unfold onResponse.
  rewrite (not_ok response Hstatus). cbn [negb].
  split.
  - destruct (text response) as [t|r]; eauto.
  - intros bodyText ->. reflexivity.
Qed.

Lemma http_error_rejects_with_status_witness :
  snd (fetchJSON "https://fake.com" noProps None [FetchSettled (Fulfilled unauthorized)])
  = Some (Rejected (Built {| message := String dquote (String dquote EmptyString);
                             errorStatus := 401;
                             errorStatusText := "Unauthorized" |})).
Proof.
  apply (http_error_rejects_with_status "https://fake.com" noProps None unauthorized []).
  - right. reflexivity.
  - reflexivity.
Defined.



(** *** The request *)

Lemma config_header (name : string) (props : FetchJSONProps) :
  requestHeaders (config props) !! name
  = match customHeader name props with
    | Some v => Some v
    | None => snd (prepare props) !! name
    end.
Proof.
  unfold config, customHeader.
  destruct (prepare props) as [[tempMethod tempBody] hs]. cbn [requestHeaders snd].
  destruct (default ∅ (customHeaders props) !! name) as [v|] eqn:Hc.
  - now apply lookup_union_Some_l.
  - now apply lookup_union_r.
Qed.

Lemma config_method_body (props : FetchJSONProps) :
  requestMethod (config props)
  = default (fst (fst (prepare props))) (method (customConfig props))
  /\ requestBody (config props) = snd (fst (prepare props)).
Proof.
  unfold config. destruct (prepare props) as [[tempMethod tempBody] hs].
  split; reflexivity.
Qed.



(** The authorization header is the only one lines 118 to 120 can add. *)
Lemma token_headers (props : FetchJSONProps) :
  (match token props with
   | Some t =>
       if nonEmpty t
       then <["Authorization" := "Bearer " ++ t]> (∅ : gmap string string)
       else ∅
   | None => ∅
   end) !! "Content-Type" = None.
Proof.
  destruct (token props) as [t|]; [|apply lookup_empty].
  destruct (nonEmpty t); [|apply lookup_empty].
  rewrite lookup_insert_ne by discriminate. apply lookup_empty.
Qed.

Lemma prepare_falsy (props : FetchJSONProps) (b : JSONValue) :
  body props = Some b -> truthy b = false ->
  fst (prepare props) = ("GET", None)
  /\ snd (prepare props) !! "Content-Type" = None.
Proof.
  intros Hb Ht. unfold prepare. rewrite Hb, Ht. cbn [fst snd].
  split; [reflexivity | apply token_headers].
Qed.




(** [C10] The falsy JSON values are exactly [null], [0], [false] and the
    empty string.  With one of them as [options.body], lines 115 to 126
    leave [temp] at method GET with no body and add no [Content-Type] to
    [headers]: the request [fetchJSON] issues is the one it issues with no
    body at all.  It has no body, its method is GET unless [options.method]
    names one, and its only [Content-Type] is the caller's own, if any. *)
Theorem falsy_body_not_serialized (props : FetchJSONProps) (b : JSONValue) :
  body props = Some b ->
  truthy b = false ->
  (b = JNull \/ b = JNumber 0 \/ b = JBool false \/ b = JString EmptyString)
  /\ fst (prepare props) = ("GET", None)
  /\ snd (prepare props) !! "Content-Type" = None
  /\ (forall endpoint, request endpoint props = request endpoint (withoutBody props))
  /\ requestBody (config props) = None
  /\ requestMethod (config props) = default "GET" (method (customConfig props))
  /\ requestHeaders (config props) !! "Content-Type"
     = customHeader "Content-Type" props.
Proof.
  intros Hb Ht.
  destruct (prepare_falsy props b Hb Ht) as [Htemp Hhs].
  destruct (config_method_body props) as [Hm Hbody].
  split; [|split; [exact Htemp|split; [exact Hhs|split; [|split; [|split]]]]].
  - destruct b as [|[]|n|s| |]; simpl in Ht; try discriminate; auto.
    + apply negb_false_iff, Z.eqb_eq in Ht. subst. auto.
    + destruct s; [auto | discriminate].
  - intros endpoint. unfold request, query, config, prepare, withoutBody.
    cbn [body token customHeaders queryParams customConfig].
    now rewrite Hb, Ht.
  - now rewrite Hbody, Htemp.
  - now rewrite Hm, Htemp.
  - rewrite config_header, Hhs. now destruct (customHeader "Content-Type" props).
Qed.

Lemma falsy_body_not_serialized_witness :
  requestBody (config zeroBody) = None
  /\ requestMethod (config zeroBody) = "GET"
  /\ requestHeaders (config zeroBody) !! "Content-Type" = None.
Proof.
  destruct (falsy_body_not_serialized zeroBody (JNumber 0))
    as (_ & _ & _ & _ & Hb & Hm & Hh).
  - reflexivity.
  - reflexivity.
  - split; [exact Hb|]. split; [exact Hm | exact Hh].
Defined.

End FetchJSONFacts.


(** ** The counter service: calls that overlap *)

Module CounterServiceMore.
Import CounterModel CounterService CounterServiceFacts.

Lemma fire_setNow (t : Timer) (n : nat) (s : Service) :
  fire t (setNow n s) = setNow n (fire t s).
Proof. unfold fire. destruct (callback t); reflexivity. Qed.

Lemma fireDue_setNow (target n : nat) (q : list Timer) :
  forall s, fireDue target q (setNow n s) = setNow n (fireDue target q s).
Proof.
  induction q as [|t q IH]; intros s; simpl; [reflexivity|].
  destruct (due t <=? target)%nat; [|reflexivity].
  now rewrite fire_setNow, IH.
Qed.

(** Firing up to a later instant picks up where an earlier firing stopped. *)
Lemma fireDue_resume (earlier later : nat) (q : list Timer) :
  (earlier <= later)%nat ->
  forall s,
    fireDue later (timers (fireDue earlier q s)) (fireDue earlier q s)
    = fireDue later q s.
Proof.
  intros Hle. induction q as [|t q IH]; intros s; [reflexivity|].
  cbn [fireDue].
  destruct (Nat.leb_spec (due t) earlier) as [Hdue|Hlater].
  - destruct (Nat.leb_spec (due t) later); [apply IH | lia].
  - cbn [timers setTimers]. now rewrite fireDue_setTimers.
Qed.

(** Letting [a] ms pass and then [b] ms is letting [a + b] ms pass. *)
Lemma advance_advance (a b : nat) (s : Service) :
  advanceTimersByTime b (advanceTimersByTime a s) = advanceTimersByTime (a + b) s.
Proof.
  unfold advanceTimersByTime. cbn [now timers setNow].
  rewrite fireDue_setNow, fireDue_resume by lia.
  rewrite Nat.add_assoc. reflexivity.
Qed.

Lemma now_advance (ms : nat) (s : Service) :
  now (advanceTimersByTime ms s) = (now s + ms)%nat.
Proof. reflexivity. Qed.

(** Two callbacks set [gap] ms apart, seen once the second is due: both
    have run, the first before the second, after everything that was
    queued before them. *)
Lemma two_callbacks (first second : Callback) (s : Service) (gap ms : nat) :
  wellTimed s -> (1000 <= ms)%nat ->
  advanceTimersByTime ms
    (setTimeout second 1000
       (bump (advanceTimersByTime gap (setTimeout first 1000 (bump s)))))
  = fire {| due := (now s + gap + 1000)%nat; callback := second |}
      (bump (fire {| due := (now s + 1000)%nat; callback := first |}
               (bump (advanceTimersByTime (gap + ms) s)))).
Proof.
  intros Hs Hms.
  rewrite set_then_advance_late;
    [|now apply wellTimed_advance, wellTimed_set|exact Hms].
  rewrite advance_advance, now_advance.
  rewrite set_then_advance_late by (try assumption; lia).
  reflexivity.
Qed.

(** [X14] A [getCounter()] made at any moment after [updateCounter(c)],
    whether that call was awaited or not, resolves with [c.value], provided
    no other update is made in between: the timers fire in the order they
    were set. *)
Theorem read_after_write_sees_it (s : Service) (c : Counter) (gap ms : nat) :
  wellTimed s -> (1000 <= ms)%nat ->
  let written := advanceTimersByTime gap (fst (updateCounter c s)) in
  let read := getCounter written in
  resolved (advanceTimersByTime ms (fst read))
  = resolved (advanceTimersByTime (gap + ms) s)
    ++ [{| promise := nextPromise s;
           resolvedAt := (now s + 1000)%nat;
           result := create (value c) |};
        {| promise := snd read;
           resolvedAt := (now s + gap + 1000)%nat;
           result := create (value c) |}].
Proof.
  intros Hs Hms written read. subst read written.
  rewrite getCounter_unfold, updateCounter_unfold. cbn [fst snd].
  rewrite two_callbacks by assumption.
  unfold fire. cbn. now rewrite <- app_assoc.
Qed.

Lemma read_after_write_sees_it_witness :
  resolved
    (advanceTimersByTime 1000
       (fst (getCounter
               (advanceTimersByTime 0 (fst (updateCounter (create 7) initial))))))
  = [{| promise := 0%nat; resolvedAt := 1000%nat; result := create 7 |};
     {| promise := 1%nat; resolvedAt := 1000%nat; result := create 7 |}].
Proof.
  apply (read_after_write_sees_it initial (create 7) 0 1000).
  - exact I.
  - lia.
Defined.

(** [X15] A [getCounter()] made before an [updateCounter(c)] does not see
    [c.value], even when both are made in the same instant and resolve at
    the same time: it resolves with the count the earlier operations left,
    which in an idle service is the count at the time of the call. *)
Theorem read_before_write_misses_it (s : Service) (c : Counter) (gap ms : nat) :
  wellTimed s -> (1000 <= ms)%nat ->
  let read := getCounter s in
  let written := updateCounter c (advanceTimersByTime gap (fst read)) in
  resolved (advanceTimersByTime ms (fst written))
  = resolved (advanceTimersByTime (gap + ms) s)
    ++ [{| promise := snd read;
           resolvedAt := (now s + 1000)%nat;
           result := create (count (advanceTimersByTime (gap + ms) s)) |};
        {| promise := snd written;
           resolvedAt := (now s + gap + 1000)%nat;
           result := create (value c) |}]
  /\ count (advanceTimersByTime ms (fst written)) = value c
  /\ (timers s = [] -> count (advanceTimersByTime (gap + ms) s) = count s).
Proof.
  intros Hs Hms read written. subst written read.
  rewrite updateCounter_unfold. cbn [fst snd].
  rewrite ?getCounter_unfold. cbn [fst snd].
  rewrite two_callbacks by assumption.
  split; [|split].
  - unfold fire. cbn. now rewrite <- app_assoc.
  - reflexivity.
  - intros Hidle. now apply advance_idle.
Qed.

Lemma read_before_write_misses_it_witness :
  resolved
    (advanceTimersByTime 1000
       (fst (updateCounter (create 7)
               (advanceTimersByTime 0 (fst (getCounter initial))))))
  = [{| promise := 0%nat; resolvedAt := 1000%nat; result := create 0 |};
     {| promise := 1%nat; resolvedAt := 1000%nat; result := create 7 |}].
Proof.
  apply (read_before_write_misses_it initial (create 7) 0 1000).
  - exact I.
  - lia.
Defined.

(** [X16] Of two [updateCounter] calls the later one decides the stored
    count, and yet each caller is told its own value: the first promise
    resolves with the first counter even though the count ends up being the
    second. *)
Theorem last_write_wins (s : Service) (a b : Counter) (gap ms : nat) :
  wellTimed s -> (1000 <= ms)%nat ->
  let first := updateCounter a s in
  let second := updateCounter b (advanceTimersByTime gap (fst first)) in
  count (advanceTimersByTime ms (fst second)) = value b
  /\ resolved (advanceTimersByTime ms (fst second))
     = resolved (advanceTimersByTime (gap + ms) s)
       ++ [{| promise := snd first;
              resolvedAt := (now s + 1000)%nat;
              result := create (value a) |};
           {| promise := snd second;
              resolvedAt := (now s + gap + 1000)%nat;
              result := create (value b) |}].
Proof.
  intros Hs Hms first second. subst second first.
  rewrite updateCounter_unfold. cbn [fst snd].
  rewrite ?updateCounter_unfold. cbn [fst snd].
  rewrite two_callbacks by assumption.
  split; [reflexivity|].
  unfold fire. cbn. now rewrite <- app_assoc.
Qed.

Lemma last_write_wins_witness :
  count
    (advanceTimersByTime 1000
       (fst (updateCounter (create 2)
               (advanceTimersByTime 300 (fst (updateCounter (create 9) initial))))))
  = 2.
Proof.
  apply (last_write_wins initial (create 9) (create 2) 300 1000).
  - exact I.
  - lia.
Defined.

(** *** What every reachable state is like *)

Lemma fire_promise (t : Timer) (s : Service) :
  List.map promise (resolved (fire t s))
  = (List.map promise (resolved s) ++ [promiseOf t])%list.
Proof.
  unfold fire, promiseOf. destruct (callback t); cbn; now rewrite List.map_app.
Qed.

Lemma fireDue_issued (target : nat) (q : list Timer) :
  forall s,
    issued (fireDue target q s)
    = (List.map promise (resolved s) ++ List.map promiseOf q)%list
    /\ nextPromise (fireDue target q s) = nextPromise s.
Proof.
  induction q as [|t q IH]; intros s; cbn [fireDue]; [split; reflexivity|].
  destruct (due t <=? target)%nat; [|split; reflexivity].
  destruct (IH (fire t s)) as [-> ->]. split.
  - cbn [List.map]. rewrite fire_promise, <- app_assoc. reflexivity.
  - unfold fire. destruct (callback t); reflexivity.
Qed.

Lemma issued_set (cb : Callback) (s : Service) :
  wellTimed s ->
  issued (setTimeout cb 1000 (bump s))
  = (issued s ++ [promiseOf {| due := (now s + 1000)%nat; callback := cb |}])%list.
Proof.
  intros Hs. unfold issued, setTimeout. cbn [resolved timers setTimers].
  rewrite now_bump, timers_bump. rewrite enqueue_last.
  2:{ eapply List.Forall_impl; [|apply (ordered_due _ _ _ Hs)]. simpl. lia. }
  rewrite List.map_app, app_assoc. reflexivity.
Qed.

Lemma issued_step (s : Service) (o : Op) :
  wellTimed s ->
  issued s = seq 0 (nextPromise s) ->
  issued (perform s o) = seq 0 (nextPromise (perform s o)).
Proof.
  intros Hs Hi. destruct o as [|c|ms]; cbn [perform].
  - rewrite getCounter_unfold. cbn [fst].
    rewrite issued_set, Hi by assumption.
    change (nextPromise (setTimeout _ 1000 (bump s))) with (S (nextPromise s)).
    now rewrite seq_S.
  - rewrite updateCounter_unfold. cbn [fst].
    rewrite issued_set, Hi by assumption.
    change (nextPromise (setTimeout _ 1000 (bump s))) with (S (nextPromise s)).
    now rewrite seq_S.
  - unfold advanceTimersByTime.
    destruct (fireDue_issued (now s + ms) (timers s) s) as [Hq Hn].
    change (issued (setNow ?n ?x)) with (issued x).
    change (nextPromise (setNow ?n ?x)) with (nextPromise x).
    now rewrite Hq, Hn.
Qed.

Lemma prefix_of_seq (l1 : list nat) :
  forall (l2 : list nat) (a n : nat),
    (l1 ++ l2)%list = seq a n -> l1 = seq a (length l1).
Proof.
  induction l1 as [|x l1 IH]; intros l2 a n H; [reflexivity|].
  destruct n as [|n]; [discriminate|].
  cbn in H. injection H as -> H.
  cbn. f_equal. exact (IH l2 (S a) n H).
Qed.

(** [X17] In every state the service can reach, no promise is lost and
    none is resolved twice: the promises resolved so far followed by those
    still pending are exactly the promises handed out, in the order of the
    calls.  So the promises resolve in call order, each one once. *)
Theorem promises_resolve_once_in_call_order (ops : list Op) :
  let s := runOps ops initial in
  issued s = seq 0 (nextPromise s)
  /\ List.map promise (resolved s) = seq 0 (length (resolved s))
  /\ NoDup (List.map promise (resolved s))
  /\ (length (resolved s) + length (timers s))%nat = nextPromise s.
Proof.
  intros s.
  assert (Hi : issued s = seq 0 (nextPromise s)).
  { subst s.
    assert (H : forall s0, wellTimed s0 -> issued s0 = seq 0 (nextPromise s0) ->
                           wellTimed (runOps ops s0)
                           /\ issued (runOps ops s0) = seq 0 (nextPromise (runOps ops s0))).
    { induction ops as [|o ops IH]; intros s0 Hw Hs0; [now split|].
      apply IH.
      - destruct o as [|c|ms]; cbn [perform].
        + now apply wellTimed_set.
        + now apply wellTimed_set.
        + now apply wellTimed_advance.
      - now apply issued_step. }
    apply H; [exact I | reflexivity]. }
  split; [exact Hi|].
  assert (Hpre : List.map promise (resolved s) = seq 0 (length (resolved s))).
  { unfold issued in Hi. apply prefix_of_seq in Hi.
    now rewrite length_map in Hi. }
  split; [exact Hpre|]. split.
  - rewrite Hpre. apply NoDup_ListNoDup, List.seq_NoDup.
  - apply (f_equal (@length nat)) in Hi. unfold issued in Hi.
    now rewrite length_app, !length_map, length_seq in Hi.
Qed.

Lemma confined_weaken (P Q : Z -> Prop) (s : Service) :
  (forall v, P v -> Q v) -> confined P s -> confined Q s.
Proof.
  intros HPQ (Hc & Hr & Ht). split; [auto|]. split.
  - eapply List.Forall_impl; [|exact Hr]. simpl. auto.
  - eapply List.Forall_impl; [|exact Ht]. intros t. cbn beta. destruct (callback t); auto.
Qed.

Lemma enqueue_Forall (P : Timer -> Prop) (t : Timer) (q : list Timer) :
  P t -> Forall P q -> Forall P (enqueue t q).
Proof.
  intros Ht. induction 1 as [|u q Hu Hq IH]; simpl; [now repeat constructor|].
  destruct (due u <=? due t)%nat; now repeat constructor.
Qed.

Lemma confined_fireDue (P : Z -> Prop) (target : nat) (q : list Timer) :
  forall s,
    confined P (setTimers q s) -> confined P (fireDue target q s).
Proof.
  induction q as [|t q IH]; intros s Hs; cbn [fireDue]; [exact Hs|].
  destruct (due t <=? target)%nat; [|exact Hs].
  apply IH. destruct Hs as (Hc & Hr & Ht). cbn in Hc, Hr, Ht.
  inversion Ht as [|? ? Hhead Htail]; subst.
  unfold fire. destruct (callback t) as [p|p c]; cbn;
    (split; [|split; [apply Forall_app; split; [exact Hr|now repeat constructor]
                     |exact Htail]]); assumption.
Qed.

Lemma setTimers_timers (s : Service) : setTimers (timers s) s = s.
Proof. destruct s; reflexivity. Qed.

Lemma confined_run (ops : list Op) :
  forall (P : Z -> Prop) (s : Service),
    confined P s ->
    confined (fun v => P v \/ In v (storedValues ops)) (runOps ops s).
Proof.
  induction ops as [|o ops IH]; intros P s Hs.
  - eapply confined_weaken; [|exact Hs]. auto.
  - change (runOps (o :: ops) s) with (runOps ops (perform s o)).
    destruct o as [|c|ms].
    + eapply confined_weaken; [|apply (IH P)].
      * cbn [storedValues]. tauto.
      * destruct Hs as (Hc & Hr & Ht). cbn [perform].
        rewrite getCounter_unfold. cbn [fst].
        split; [exact Hc|]. split; [exact Hr|].
        unfold setTimeout. cbn [timers setTimers].
        apply enqueue_Forall; [exact I | exact Ht].
    + eapply confined_weaken; [|apply (IH (fun v => P v \/ v = value c))].
      * intros v [[H | ->] | H]; simpl; auto.
      * destruct Hs as (Hc & Hr & Ht). cbn [perform].
        rewrite updateCounter_unfold. cbn [fst].
        split; [now left|]. split.
        -- eapply List.Forall_impl; [|exact Hr]. simpl. auto.
        -- unfold setTimeout. cbn [timers setTimers].
           apply enqueue_Forall; [now right|].
           eapply List.Forall_impl; [|exact Ht].
           intros t. cbn beta. destruct (callback t); auto.
    + eapply confined_weaken; [|apply (IH P)].
      * cbn [storedValues]. tauto.
      * cbn [perform]. unfold advanceTimersByTime.
        assert (H : confined P (fireDue (now s + ms) (timers s) s)).
        { apply confined_fireDue. now rewrite setTimers_timers. }
        exact H.
Qed.

(** [X18] The service never answers with, nor stores, a value it was not
    given: in every reachable state the count and the result of every
    resolved promise are the initial 0 or the value of some counter passed
    to [updateCounter] before. *)
Theorem only_given_values_are_answered (ops : list Op) :
  let s := runOps ops initial in
  In (count s) (storedValues ops)
  /\ Forall (fun r => In (value (result r)) (storedValues ops)) (resolved s).
Proof.
  intros s.
  assert (Hzero : In 0 (storedValues ops)).
  { induction ops as [|[|c|ms] ops IH]; simpl; auto. }
  assert (H : confined (fun v => In v (storedValues ops)) s).
  { eapply confined_weaken; [|apply (confined_run ops (fun v => v = 0) initial)].
    - intros v [-> | Hv]; assumption.
    - split; [reflexivity|]. split; constructor. }
  destruct H as (Hc & Hr & _). split; assumption.
Qed.

End CounterServiceMore.

(** ** [toQueryString]: structure of the result *)

Module UrlMore.
Import Text Url UrlFacts.

Local Open Scope string_scope.

Local Abbreviation join := (String.concat "&").

Lemma all_pairs_nonEmpty (obj : IDictionary) :
  Forall (fun x => nonEmpty x = true) (List.flat_map pairsOf obj).
Proof.
  apply List.Forall_forall. intros x Hx.
  apply List.in_flat_map in Hx as ([key value] & _ & Hx).
  destruct value as [s|items|]; simpl in Hx.
  - destruct Hx as [<-|[]]. apply pair_nonEmpty.
  - apply List.in_map_iff in Hx as (v & <- & _). apply pair_nonEmpty.
  - destruct Hx.
Qed.

(** The result is the join of the pairs of the entries. *)
Lemma toQueryString_pairs (obj : IDictionary) :
  toQueryString obj = join (List.flat_map pairsOf obj).
Proof.
  unfold toQueryString. rewrite <- defined_pairs.
  set (entries := List.filter _ obj).
  rewrite <- join_joins.
  - unfold parse at 1. do 2 f_equal.
    rewrite List.map_map. apply List.map_ext. intros [key value].
    unfold parse, pairsOfDefined.
    now rewrite filter_nonEmpty_all by apply pairs_nonEmpty.
  - apply List.Forall_forall. intros l Hl.
    apply List.in_map_iff in Hl as ([key value] & <- & _).
    apply pairs_nonEmpty.
Qed.

Lemma append_nil_r (a : string) : a ++ EmptyString = a.
Proof.
  induction a as [|ch a IH]; [reflexivity|]. now rewrite append_cons, IH.
Qed.

Lemma join_empty_iff (l : list string) :
  Forall (fun x => nonEmpty x = true) l -> (join l = EmptyString <-> l = []).
Proof.
  intros Hl. split; [|now intros ->].
  intros Hj. destruct l as [|x l]; [reflexivity|].
  assert (Hne : nonEmpty (join (x :: l)) = true)
    by (apply join_nonEmpty; [exact Hl | discriminate]).
  rewrite Hj in Hne. discriminate.
Qed.

(** [X9] The query string of two dictionaries put one after the other is
    the two query strings joined by one [&]; when either of them is empty
    it is just the other, with no stray separator. *)
Theorem toQueryString_of_concatenation (a b : IDictionary) :
  toQueryString (a ++ b)%list
  = if nonEmpty (toQueryString a) && nonEmpty (toQueryString b)
    then toQueryString a ++ "&" ++ toQueryString b
    else toQueryString a ++ toQueryString b.
Proof.
  rewrite !toQueryString_pairs, List.flat_map_app.
  pose proof (all_pairs_nonEmpty a) as Ha.
  pose proof (all_pairs_nonEmpty b) as Hb.
  destruct (List.flat_map pairsOf a) as [|x xs] eqn:Hxs.
  - reflexivity.
  - destruct (List.flat_map pairsOf b) as [|y ys] eqn:Hys.
    + rewrite app_nil_r, andb_false_r. now rewrite append_nil_r.
    + rewrite (join_nonEmpty (x :: xs) Ha), (join_nonEmpty (y :: ys) Hb)
        by discriminate.
      cbn [andb]. apply join_app; discriminate.
Qed.

Lemma pairs_of_contributing (obj : IDictionary) :
  List.flat_map pairsOf (List.filter contributes obj) = List.flat_map pairsOf obj.
Proof.
  induction obj as [|[key value] obj IH]; [reflexivity|].
  destruct value as [s|[|i items]|]; cbn; now rewrite IH.
Qed.

Lemma pairsOf_nil_iff (entry : string * QueryValue) :
  pairsOf entry = [] <-> contributes entry = false.
Proof.
  destruct entry as [key [s|[|i items]|]]; cbn; split; congruence.
Qed.

(** [X10] An entry whose value is undefined or an empty list leaves no
    trace: the result is the same with such entries taken out.  The result
    is the empty string exactly when every entry is of that kind. *)
Theorem entries_without_values_leave_no_trace (obj : IDictionary) :
  toQueryString obj = toQueryString (List.filter contributes obj)
  /\ (toQueryString obj = EmptyString
      <-> Forall (fun entry => snd entry = QUndefined \/ snd entry = QList []) obj).
Proof.
  split.
  - now rewrite !toQueryString_pairs, pairs_of_contributing.
  - rewrite toQueryString_pairs, (join_empty_iff _ (all_pairs_nonEmpty obj)).
    induction obj as [|entry obj IH]; [split; [constructor | reflexivity]|].
    cbn [List.flat_map]. split.
    + intros H. apply app_eq_nil in H as [He Hobj].
      constructor; [|now apply IH].
      apply pairsOf_nil_iff in He.
      destruct entry as [key [s|[|i items]|]]; cbn in *; auto; discriminate.
    + intros H. inversion H as [|? ? He Hobj]; subst.
      apply IH in Hobj. rewrite Hobj, app_nil_r.
      apply pairsOf_nil_iff.
      destruct entry as [key value]; cbn in *. destruct He as [-> | ->]; reflexivity.
Qed.

Lemma nothing_contributes (obj : IDictionary) :
  Forall (fun entry => contributes entry = false) obj ->
  toQueryString obj = EmptyString.
Proof.
  intros H. rewrite toQueryString_pairs.
  induction H as [|entry obj He _ IH]; [reflexivity|].
  cbn [List.flat_map]. apply pairsOf_nil_iff in He. now rewrite He.
Qed.

(** *** Separators *)

Lemma count_append (c : ascii) (a b : string) :
  count c (a ++ b) = (count c a + count c b)%nat.
Proof.
  induction a as [|d a IH]; [reflexivity|].
  rewrite append_cons. simpl. rewrite IH. lia.
Qed.

Lemma count_encodeByte (c : ascii) :
  count "&" (encodeByte c) = 0%nat /\ count "=" (encodeByte c) = 0%nat.
Proof.
  destruct c as [[] [] [] [] [] [] [] []]; split; reflexivity.
Qed.

Lemma count_encodeURIComponent (s : string) :
  count "&" (encodeURIComponent s) = 0%nat
  /\ count "=" (encodeURIComponent s) = 0%nat.
Proof.
  induction s as [|c s [IHa IHe]]; simpl; [easy|].
  destruct (count_encodeByte c) as [Ha He].
  rewrite !count_append, Ha, He, IHa, IHe. easy.
Qed.

Lemma count_pair (key val : string) :
  count "&" (pair key val) = 0%nat /\ count "=" (pair key val) = 1%nat.
Proof.
  unfold pair.
  destruct (count_encodeURIComponent key) as [Hka Hke].
  destruct (count_encodeURIComponent val) as [Hva Hve].
  rewrite !count_append, Hka, Hke, Hva, Hve. split; reflexivity.
Qed.

Lemma count_join (l : list string) :
  Forall (fun x => count "&" x = 0%nat /\ count "=" x = 1%nat) l ->
  count "=" (join l) = length l /\ count "&" (join l) = pred (length l).
Proof.
  induction 1 as [|x l [Hxa Hxe] Hl [IHe IHa]]; [split; reflexivity|].
  rewrite join_cons. destruct l as [|y l].
  - rewrite Hxa, Hxe. split; reflexivity.
  - rewrite !count_append, Hxa, Hxe, IHe, IHa. cbn. split; lia.
Qed.

(** [X11] The result has exactly one [=] per pair it holds and exactly one
    [&] between two pairs, whatever the keys and values contain: a key or
    value with [&] or [=] in it cannot add or remove a pair. *)
Theorem separators_match_pairs (obj : IDictionary) :
  count "=" (toQueryString obj) = length (List.flat_map pairsOf obj)
  /\ count "&" (toQueryString obj) = pred (length (List.flat_map pairsOf obj)).
Proof.
  rewrite toQueryString_pairs. apply count_join.
  apply List.Forall_forall. intros x Hx.
  apply List.in_flat_map in Hx as ([key value] & _ & Hx).
  destruct value as [s|items|]; simpl in Hx.
  - destruct Hx as [<-|[]]. apply count_pair.
  - apply List.in_map_iff in Hx as (v & <- & _). apply count_pair.
  - destruct Hx.
Qed.

End UrlMore.

(** ** [fetchJSON]: the paths the claims leave out *)

Module FetchJSONMore.
Import Text Json Url FetchJSON FetchJSONFacts.

Local Open Scope string_scope.

(** *** Settling *)

Lemma deliverAll_app (xs ys : list Event) (c : Call) :
  deliverAll (xs ++ ys) c = deliverAll ys (deliverAll xs c).
Proof. unfold deliverAll. apply fold_left_app. Qed.

Lemma unarmed_start (timeout : option Z) :
  armsNoTimer timeout -> timerArmed (start timeout) = false.
Proof.
  destruct timeout as [t|]; simpl; [|reflexivity].
  intros Ht. apply Z.ltb_ge. exact Ht.
Qed.

(** With no timer armed, the timer's events change nothing. *)
Lemma unarmed_ignores_timer (events : list Event) :
  forall c : Call,
    timerArmed c = false ->
    outer (deliverAll events c) = outer (deliverAll (networkEvents events) c).
Proof.
  induction events as [|e events IH]; intros c Hc; [reflexivity|].
  destruct e as [|outcome].
  - change (deliverAll (TimerFired :: events) c)
      with (deliverAll events (deliver c TimerFired)).
    unfold deliver. rewrite Hc. simpl networkEvents. now apply IH.
  - change (deliverAll (FetchSettled outcome :: events) c)
      with (deliverAll events (deliver c (FetchSettled outcome))).
    change (networkEvents (FetchSettled outcome :: events))
      with (FetchSettled outcome :: networkEvents events).
    change (deliverAll (FetchSettled outcome :: networkEvents events) c)
      with (deliverAll (networkEvents events) (deliver c (FetchSettled outcome))).
    apply IH. simpl. now destruct (network c).
Qed.

(** [X1] When [timeout] is not given, zero or negative, line 140 arms no
    timer: the promise [fetchJSON] returns settles exactly as if the host
    had delivered the network's events alone, and as long as the [fetch]
    has not settled it stays pending, however long that takes. *)
Theorem no_timer_without_positive_timeout
  (endpoint : string) (props : FetchJSONProps) (timeout : option Z)
  (events : list Event) :
  armsNoTimer timeout ->
  snd (fetchJSON endpoint props timeout events)
  = snd (fetchJSON endpoint props timeout (networkEvents events))
  /\ (networkEvents events = [] ->
      snd (fetchJSON endpoint props timeout events) = None).
Proof.
  intros Hno.
  assert (Heq : outer (deliverAll events (start timeout))
                = outer (deliverAll (networkEvents events) (start timeout)))
    by now apply unarmed_ignores_timer, unarmed_start.
  unfold fetchJSON. cbn [snd]. rewrite Heq.
  split; [reflexivity|]. intros ->. reflexivity.
Qed.

Lemma no_timer_without_positive_timeout_witness :
  snd (fetchJSON "https://fake.com" noProps (Some 0%Z) [TimerFired; TimerFired]) = None
  /\ snd (fetchJSON "https://fake.com" noProps None
             [TimerFired; FetchSettled (Fulfilled oneTwo)])
     = snd (fetchJSON "https://fake.com" noProps None [FetchSettled (Fulfilled oneTwo)]).
Proof.
  split.
  - apply (no_timer_without_positive_timeout "https://fake.com" noProps (Some 0%Z)
             [TimerFired; TimerFired]).
    + simpl. lia.
    + reflexivity.
  - apply (no_timer_without_positive_timeout "https://fake.com" noProps None
             [TimerFired; FetchSettled (Fulfilled oneTwo)]).
    exact I.
Defined.

(** [X2] A failure of the underlying [fetch] that arrives before any timer
    fires rejects the promise of [fetchJSON] with the very same reason:
    the handler of lines 147 to 164 is not run and nothing is wrapped. *)
Theorem network_failure_passes_through
  (endpoint : string) (props : FetchJSONProps) (timeout : option Z)
  (reason : Reason) (later : list Event) :
  snd (fetchJSON endpoint props timeout (FetchSettled (Rejected reason) :: later))
  = Some (Rejected reason).
Proof.
  unfold fetchJSON. cbn [snd].
  change (deliverAll (FetchSettled (Rejected reason) :: later) (start timeout))
    with (deliverAll later (deliver (start timeout) (FetchSettled (Rejected reason)))).
  rewrite (outer_settled later _ (Rejected reason)); reflexivity.
Qed.

(** [X3] Once the promise of [fetchJSON] has settled, nothing the host
    delivers afterwards changes its outcome: a timer that fires after the
    response, or a response that arrives after the timeout, is ignored. *)
Theorem settled_outcome_is_final
  (endpoint : string) (props : FetchJSONProps) (timeout : option Z)
  (events more : list Event) (outcome : Settled HttpResponse) :
  snd (fetchJSON endpoint props timeout events) = Some outcome ->
  snd (fetchJSON endpoint props timeout (events ++ more)) = Some outcome.
Proof.
  unfold fetchJSON. cbn [snd]. rewrite deliverAll_app.
  destruct (outer (deliverAll events (start timeout))) as [o|] eqn:Ho;
    [|discriminate].
  intros Hthen. now rewrite (outer_settled more _ o Ho).
Qed.

Lemma settled_outcome_is_final_witness :
  snd (fetchJSON "https://fake.com" noProps (Some 1000%Z)
         ([FetchSettled (Fulfilled oneTwo)] ++ [TimerFired]))
  = Some (Fulfilled (withParsedBody (JObject [("one", JString "two")]) oneTwo)).
Proof.
  apply (settled_outcome_is_final "https://fake.com" noProps (Some 1000%Z)
           [FetchSettled (Fulfilled oneTwo)] [TimerFired]).
  reflexivity.
Defined.

(** [X4] When the body reader the handler picks fails, [fetchJSON] rejects
    with the reader's own reason.  For a response outside 200..299 whose
    [text()] fails, the status and status text are lost; for a 2xx response
    with a JSON content type whose [json()] fails, there is no fall-back to
    the text; and [json()] is the only reader consulted there, so a failing
    [text()] does no harm. *)
Theorem body_reader_failure_rejects
  (endpoint : string) (props : FetchJSONProps) (timeout : option Z)
  (response : HttpResponse) (reason : Reason) (later : list Event) :
  let result :=
    snd (fetchJSON endpoint props timeout
           (FetchSettled (Fulfilled response) :: later)) in
  (ok response = false -> text response = Rejected reason ->
   result = Some (Rejected reason))
  /\ (ok response = true -> isJsonType response = true ->
      json response = Rejected reason ->
      result = Some (Rejected reason))
  /\ (ok response = true -> isJsonType response = false ->
      text response = Rejected reason ->
      result = Some (Rejected reason))
  /\ (ok response = true -> isJsonType response = true ->
      forall v, json response = Fulfilled v ->
                result = Some (Fulfilled (withParsedBody v response))).
Proof.
  intros result. subst result. rewrite response_first. unfold onResponse.
  split; [|split; [|split]].
  - intros -> ->. reflexivity.
  - intros -> -> ->. reflexivity.
  - intros -> -> ->. reflexivity.
  - intros -> -> v ->. reflexivity.
Qed.

Lemma body_reader_failure_rejects_witness :
  snd (fetchJSON "https://fake.com" noProps None
         [FetchSettled
            (Fulfilled
               {| url := "https://fake.com/";
                  status := 204;
                  statusText := "No Content";
                  headers := [("content-type", "application/json")];
                  text := Fulfilled EmptyString;
                  json := Rejected (Thrown "SyntaxError" "Unexpected end of JSON input");
                  parsedBody := None |})])
  = Some (Rejected (Thrown "SyntaxError" "Unexpected end of JSON input")).
Proof.
  refine (proj1 (proj2 (body_reader_failure_rejects "https://fake.com" noProps None
                          _ _ [])) _ _ _); reflexivity.
Defined.

(** *** The request *)

(** What lines 115 to 126 put into [headers], name by name. *)
Lemma prepare_header (props : FetchJSONProps) (name : string) :
  snd (prepare props) !! name
  = if decide (name = "Content-Type") then
      match body props with
      | Some b => if truthy b then Some "application/json" else None
      | None => None
      end
    else if decide (name = "Authorization") then
      match token props with
      | Some t => if nonEmpty t then Some ("Bearer " ++ t) else None
      | None => None
      end
    else None.
Proof.
  unfold prepare.
  destruct (token props) as [t|]; [destruct (nonEmpty t)|];
    (destruct (body props) as [b|]; [destruct (truthy b)|]);
    cbn [snd]; repeat case_decide; subst;
    rewrite ?lookup_insert_eq; try reflexivity;
    rewrite ?lookup_insert_ne by congruence;
    rewrite ?lookup_insert_eq, ?lookup_empty; try reflexivity; congruence.
Qed.






(** [X7] A non-empty token becomes the header [Authorization: Bearer
    <token>], unless the caller's own headers have an [Authorization]
    entry, which then wins.  An empty token is falsy on line 118 and adds
    nothing, like no token at all. *)
Theorem token_becomes_bearer_header (props : FetchJSONProps) :
  (forall t : string,
      token props = Some t -> nonEmpty t = true ->
      requestHeaders (config props) !! "Authorization"
      = Some (default ("Bearer " ++ t) (customHeader "Authorization" props)))
  /\ ((token props = None \/ token props = Some EmptyString) ->
      requestHeaders (config props) !! "Authorization"
      = customHeader "Authorization" props).
Proof.
  split.
  - intros t Ht Hne. rewrite config_header, prepare_header, Ht, Hne.
    case_decide; [discriminate|]. case_decide; [|congruence].
    now destruct (customHeader "Authorization" props).
  - intros Ht. rewrite config_header, prepare_header.
    case_decide; [discriminate|]. case_decide; [|congruence].
    destruct (customHeader "Authorization" props); [reflexivity|].
    destruct Ht as [-> | ->]; reflexivity.
Qed.

Lemma token_becomes_bearer_header_witness :
  requestHeaders (config zeroBody) !! "Authorization" = Some "Bearer 12345".
Proof.
  destruct (token_becomes_bearer_header zeroBody) as [Hset _].
  apply (Hset "12345"); reflexivity.
Defined.

(** [X8] Every header the caller passes reaches the request unchanged, and
    [fetchJSON] adds no header of its own besides [Authorization] and
    [Content-Type]: under any other name the request has exactly what the
    caller gave. *)
Theorem headers_are_the_callers_plus_two (props : FetchJSONProps) (name : string) :
  (forall v : string,
      customHeader name props = Some v ->
      requestHeaders (config props) !! name = Some v)
  /\ (name <> "Authorization" -> name <> "Content-Type" ->
      requestHeaders (config props) !! name = customHeader name props).
Proof.
  rewrite config_header. split.
  - intros v ->. reflexivity.
  - intros Ha Hc. rewrite prepare_header.
    do 2 (case_decide; [congruence|]).
    now destruct (customHeader name props).
Qed.

Lemma headers_are_the_callers_plus_two_witness :
  requestHeaders (config formPost) !! "Content-Type"
  = Some "application/x-www-form-urlencoded"
  /\ requestHeaders (config formPost) !! "Accept" = None.
Proof.
  split.
  - apply (proj1 (headers_are_the_callers_plus_two formPost "Content-Type")).
    reflexivity.
  - apply (proj2 (headers_are_the_callers_plus_two formPost "Accept"));
      discriminate.
Defined.

(** [X12] The URL handed to [fetch] is the endpoint followed, when
    [queryParams] is given, by [?] and the query string, and the endpoint
    itself otherwise.  The [?] is added whenever the dictionary is given:
    an empty dictionary, or one whose values are all undefined or empty
    lists, leaves the URL ending in a bare [?]. *)
Theorem url_is_endpoint_then_query (endpoint : string) (props : FetchJSONProps) :
  (queryParams props = None -> fst (request endpoint props) = endpoint)
  /\ (forall q : IDictionary,
        queryParams props = Some q ->
        fst (request endpoint props) = endpoint ++ "?" ++ toQueryString q
        /\ (Forall (fun entry => contributes entry = false) q ->
            fst (request endpoint props) = endpoint ++ "?")).
Proof.
  unfold request, query. cbn [fst]. split.
  - intros ->. apply UrlMore.append_nil_r.
  - intros q ->. split; [reflexivity|].
    intros Hq. now rewrite (UrlMore.nothing_contributes q Hq).
Qed.

Lemma url_is_endpoint_then_query_witness :
  let props :=
    {| body := None; token := None; customHeaders := None;
       queryParams := Some [("one", QUndefined); ("two", QList [])];
       customConfig := {| method := None; passthrough := ∅ |} |} in
  fst (request "https://fake.com/foo" props) = "https://fake.com/foo?".
Proof.
  intros props.
  destruct (url_is_endpoint_then_query "https://fake.com/foo" props) as [_ Hq].
  destruct (Hq [("one", QUndefined); ("two", QList [])]) as [_ Hbare]; [reflexivity|].
  apply Hbare. repeat constructor.
Defined.

(** *** Content type *)

Lemma prefix_append (sub rest : string) : String.prefix sub (sub ++ rest) = true.
Proof.
  induction sub as [|c sub IH]; [now destruct rest|].
  rewrite UrlFacts.append_cons. simpl.
  destruct (ascii_dec c c); [exact IH | congruence].
Qed.

Lemma prefix_split (sub : string) :
  forall s, String.prefix sub s = true -> exists rest, s = sub ++ rest.
Proof.
  induction sub as [|c sub IH]; intros s Hs.
  - exists s. reflexivity.
  - destruct s as [|d s]; [discriminate|]. simpl in Hs.
    destruct (ascii_dec c d) as [<-|]; [|discriminate].
    destruct (IH s Hs) as [rest ->]. exists rest. reflexivity.
Qed.

(** [s.includes(sub)] holds exactly when [sub] occurs somewhere in [s]. *)
Lemma includes_iff (s sub : string) :
  includes s sub = true <-> exists before after, s = before ++ sub ++ after.
Proof.
  split.
  - induction s as [|c s IH].
    + cbn [includes]. rewrite orb_false_r. intros H.
      destruct (prefix_split sub _ H) as [rest ->]. now exists EmptyString, rest.
    + cbn [includes]. intros [H|H]%orb_true_iff.
      * destruct (prefix_split sub _ H) as [rest ->]. now exists EmptyString, rest.
      * destruct (IH H) as (before & after & ->).
        now exists (String c before), after.
  - intros (before & after & ->).
    induction before as [|c before IH].
    + change (EmptyString ++ sub ++ after) with (sub ++ after).
      destruct (sub ++ after) eqn:E; cbn [includes]; rewrite <- E, prefix_append;
        reflexivity.
    + rewrite UrlFacts.append_cons. cbn [includes]. rewrite IH. apply orb_true_r.
Qed.

(** [X13] A 2xx response is read as JSON exactly when the value of its
    [content-type] header has [application/json] somewhere in it, in that
    spelling: parameters around it (a charset) do not matter, another
    spelling or JSON media type does not count, and with no such header the
    body is read as text. *)
Theorem json_is_detected_by_substring
  (endpoint : string) (props : FetchJSONProps) (timeout : option Z)
  (response : HttpResponse) (later : list Event) :
  (200 <= status response <= 299)%Z ->
  let result :=
    snd (fetchJSON endpoint props timeout
           (FetchSettled (Fulfilled response) :: later)) in
  (isJsonType response = true
   <-> exists before after,
        Headers_get "content-type" (headers response)
        = Some (before ++ "application/json" ++ after))
  /\ (forall before after v,
        Headers_get "content-type" (headers response)
        = Some (before ++ "application/json" ++ after) ->
        json response = Fulfilled v ->
        result = Some (Fulfilled (withParsedBody v response)))
  /\ (forall t,
        Headers_get "content-type" (headers response) = None ->
        text response = Fulfilled t ->
        result = Some (Fulfilled (withParsedBody (JString t) response))).
Proof.
  intros Hstatus result. subst result. rewrite response_first.
  unfold onResponse. rewrite (is_ok response Hstatus). cbn [negb].
  assert (Hiff : isJsonType response = true
                 <-> exists before after,
                      Headers_get "content-type" (headers response)
                      = Some (before ++ "application/json" ++ after)).
  { unfold isJsonType.
    destruct (Headers_get "content-type" (headers response)) as [ct|].
    - split.
      + intros [_ H]%andb_true_iff. apply includes_iff in H as (b & a & ->). eauto.
      + intros (b & a & [= ->]). apply andb_true_iff. split.
        * destruct b; reflexivity.
        * apply includes_iff. eauto.
    - split; [discriminate | intros (b & a & [=])]. }
  split; [exact Hiff|]. split.
  - intros before after v Hct ->.
    assert (Hjson : isJsonType response = true) by (apply Hiff; eauto).
    now rewrite Hjson.
  - intros t Hct ->. unfold isJsonType. now rewrite Hct.
Qed.

Lemma json_is_detected_by_substring_witness :
  let response :=
    {| url := "https://fake.com/";
       status := 200;
       statusText := "OK";
       headers := [("Content-Type", "application/json; charset=utf-8")];
       text := Fulfilled "[]";
       json := Fulfilled (JArray []);
       parsedBody := None |} in
  snd (fetchJSON "https://fake.com" noProps None [FetchSettled (Fulfilled response)])
  = Some (Fulfilled (withParsedBody (JArray []) response)).
Proof.
  intros response.
  destruct (json_is_detected_by_substring "https://fake.com" noProps None response [])
    as (_ & Hjson & _).
  - simpl. lia.
  - apply (Hjson EmptyString "; charset=utf-8" (JArray [])); reflexivity.
Defined.

End FetchJSONMore.

(** ** The repository's tests, replayed on the embedding *)

Module RepositoryTests.

Module UseCaseTests.
Import CounterModel UseCases.

(** "incrementCounterUseCase - should increment properly". *)
Example should_increment_properly :
  let first := advanceTimersByTime 500 (incrementCounterUseCase (freshWorld (create 0))) in
  let second :=
    advanceTimersByTime 500 (incrementCounterUseCase (withCounter (create 1) first)) in
  setCounterCalls first = [create 1]
  /\ List.map sent (updateCounterCalls second) = [create 1; create 2].
Proof. split; reflexivity. Qed.

(** "decrementCounterUseCase - should decrement properly". *)
Example should_decrement_properly :
  let first := advanceTimersByTime 500 (decrementCounterUseCase (freshWorld (create 3))) in
  let second :=
    advanceTimersByTime 500 (decrementCounterUseCase (withCounter (create 1) first)) in
  setCounterCalls first = [create 2]
  /\ List.map sent (updateCounterCalls second) = [create 2; create 0].
Proof. split; reflexivity. Qed.

End UseCaseTests.

Module ServiceTests.
Import CounterModel CounterService.

(** "should return the counter value properly". *)
Example should_return_the_counter_value :
  let '(s, p) := getCounter initial in
  resolutionOf p (advanceTimersByTime 1000 s)
  = Some {| promise := p; resolvedAt := 1000%nat; result := {| value := 0 |} |}.
Proof. reflexivity. Qed.

(** "should update the counter value properly". *)
Example should_update_the_counter_value :
  let '(s, p) := updateCounter {| value := 5 |} initial in
  resolutionOf p (advanceTimersByTime 1000 s)
  = Some {| promise := p; resolvedAt := 1000%nat; result := {| value := 5 |} |}.
Proof. reflexivity. Qed.

End ServiceTests.

Module QueryStringTests.
Import Text Url.
Local Open Scope string_scope.

Example should_return_an_empty_string : toQueryString [] = EmptyString.
Proof. reflexivity. Qed.

Example should_map_dictionary :
  toQueryString [("one", QString "two"); ("three", QString "five")] = "one=two&three=five"
  /\ toQueryString [("one", QString "two")] = "one=two".
Proof. split; reflexivity. Qed.

Example should_support_multiple_values :
  toQueryString [("one", QString "two"); ("three", QString "five");
                 ("four", QList ["six"; "seven"])]
  = "one=two&three=five&four=six&four=seven".
Proof. reflexivity. Qed.

Example should_filter_undefined :
  toQueryString [("one", QString "two"); ("three", QString "five");
                 ("four", QUndefined); ("five", QUndefined)]
  = "one=two&three=five"
  /\ toQueryString [("one", QUndefined)] = EmptyString.
Proof. split; reflexivity. Qed.

End QueryStringTests.

Module FetchJSONTests.
Import Text Json Url FetchJSON.
Local Open Scope string_scope.

(** "should GET a JSON object from fake API". *)
Example should_get_a_json_object :
  fetchJSON "https://fake.com" noProps None [FetchSettled (Fulfilled oneTwo)]
  = (("https://fake.com",
      {| requestMethod := "GET"; requestBody := None;
         requestHeaders := ∅; requestOptions := ∅ |}),
     Some (Fulfilled (withParsedBody (JObject [("one", JString "two")]) oneTwo))).
Proof. reflexivity. Qed.

(** "should GET a JSON object from fake API sending token". *)
Example should_send_the_token :
  requestHeaders (config zeroBody) !! "Authorization" = Some "Bearer 12345".
Proof. reflexivity. Qed.

(** "should POST a JSON object from fake API". *)
Example should_post_a_json_object :
  let props :=
    {| body := Some (JObject [("three", JString "four")]);
       token := None; customHeaders := None; queryParams := None;
       customConfig := {| method := None; passthrough := ∅ |} |} in
  requestMethod (config props) = "POST"
  /\ requestBody (config props) = Some ("{" ++ quote "three" ++ ":" ++ quote "four" ++ "}").
Proof. split; reflexivity. Qed.

(** "should PATCH a JSON object from fake API". *)
Example should_patch_a_json_object :
  requestMethod (config patchCall) = "PATCH"
  /\ requestBody (config patchCall)
     = Some ("{" ++ quote "three" ++ ":" ++ quote "four" ++ "}").
Proof. split; reflexivity. Qed.

(** "should encode query parameters correctly if passed"; the [u] with
    diaeresis is the two bytes 195 and 188. *)
Example should_encode_query_parameters :
  let guenter := "Hello G" ++ String (ascii_of_nat 195) (String (ascii_of_nat 188) "nter") in
  let props :=
    {| body := None; token := None; customHeaders := None;
       queryParams :=
         Some [("email", QString "hsimpson+existinguser@gmail.com");
               ("text", QString guenter);
               ("selection", QList ["first"; "the second"])];
       customConfig := {| method := None; passthrough := ∅ |} |} in
  fst (request "https://fake.com/foo" props)
  = "https://fake.com/foo?email=hsimpson%2Bexistinguser%40gmail.com&text=Hello%20G%C3%BCnter&selection=first&selection=the%20second".
Proof. reflexivity. Qed.

End FetchJSONTests.

End RepositoryTests.
